(** * METSlib: permutation problems, moves, termination criteria and
      simulated annealing

    A shallow embedding of [model.hh], [termination-criteria.hh] and
    [simulated-annealing.hh].

    Conventions of the embedding.
    - C++ [int] values are integers of [Z]; signed overflow is undefined
      in C++ and none of the modelled paths reaches it on the inputs the
      theorems quantify over.  [/] and [%] are [Z.quot] and [Z.rem].
    - [double] (and [gol_type], which the source typedefs to [double]) is
      an abstract carrier with the operations the code uses, collected in
      the class [FloatOps]: every theorem holds for whatever arithmetic
      interprets them.  A rational instance is used to run examples.
    - A [std::vector<int>] is a [list Z]; indexing outside of the vector is
      undefined behaviour and is written out as such.
    - Calls that can throw, abort or have undefined behaviour return an
      [outcome]; [OutOfFuel] is the model's bound on a [while] loop and
      stands for no behaviour of the source. *)

From Stdlib Require Import ZArith QArith Lia String.
From stdpp Require Import base numbers option list.

Local Open Scope Z_scope.

(** ** Outcomes of a call *)

Inductive exception : Type :=
  | bad_cast
  | length_error
  | runtime_error (what : string).

Inductive outcome (A : Type) : Type :=
  | Ok (a : A)
  | Throw (e : exception)
  | Abort
  | Undefined
  | OutOfFuel.

Arguments Ok {A} a.
Arguments Throw {A} e.
Arguments Abort {A}.
Arguments Undefined {A}.
Arguments OutOfFuel {A}.

#[global] Instance outcome_ret : MRet outcome := @Ok.
#[global] Instance outcome_bind : MBind outcome := λ A B f m,
  match m with
  | Ok a => f a
  | Throw e => Throw e
  | Abort => Abort
  | Undefined => Undefined
  | OutOfFuel => OutOfFuel
  end.

(** [assert(c)] of <cassert>. *)
Definition c_assert (c : bool) : outcome unit :=
  if c then Ok tt else Abort.

(** [a % b] on [int]: undefined for a zero divisor. *)
Definition c_rem (a b : Z) : outcome Z :=
  if b =? 0 then Undefined else Ok (Z.rem a b).

(** [for (int ii(0); ii != bound; ++ii) body] run for [count] rounds from
    counter value [ii]. *)
Fixpoint for_loop {S : Type} (count : nat) (ii : Z)
    (body : Z → S → outcome S) (s : S) : outcome S :=
  match count with
  | O => Ok s
  | Datatypes.S count' => s' ← body ii s; for_loop count' (ii + 1) body s'
  end.

(** The loop from 0 up to [bound].  With a negative bound the counter never
    meets it: the source then runs into a failed assertion or into signed
    overflow, never into a normal return. *)
Definition for_upto {S : Type} (bound : Z) (body : Z → S → outcome S)
    (s : S) : outcome S :=
  if bound <? 0 then Undefined else for_loop (Z.to_nat bound) 0 body s.

(** ** Floating point interface *)

Class FloatOps (double : Type) : Type := {
  fzero : double;                       (* 0.0 *)
  fone : double;                        (* 1 *)
  fadd : double → double → double;
  fsub : double → double → double;
  fmul : double → double → double;
  fdiv : double → double → double;
  fneg : double → double;
  fltb : double → double → bool;        (* a < b *)
  fleb : double → double → bool;        (* a <= b *)
  fexp : double → double;               (* exp of <cmath> *)
  fmax_value : double                   (* std::numeric_limits<double>::max() *)
}.

(** [std::max(a, b)]: [(a < b) ? b : a]. *)
Definition std_max `{FloatOps double} (a b : double) : double :=
  if fltb a b then b else a.

(** ** model.hh *)

Section Model.
Context {double : Type} {ops : FloatOps double}.

(** [gol_type] is a typedef of [double]. *)
Local Abbreviation gol_type := double.

(** The data members of [permutation_problem]. *)
Record permutation_problem : Type := mk_permutation_problem {
  pi_m : list Z;
  cost_m : gol_type
}.

(** The dynamic type of an object handed over as [feasible_solution &]
    (or as [copyable &]): a solution that is not evaluable, an
    [evaluable_solution] of another class with the value its
    [cost_function] returns, or a [permutation_problem]. *)
Inductive feasible_solution : Type :=
  | other_solution
  | evaluable (cost : gol_type)
  | permutation (p : permutation_problem).

(** The two pure virtual members a concrete permutation problem supplies;
    both are [const] and read the object. *)
Variable compute_cost : permutation_problem → gol_type.
Variable evaluate_swap : permutation_problem → Z → Z → gol_type.

(** [permutation_problem(int n)]: [pi_m(n)], [cost_m(0.0)], then
    [std::generate] with [sequence(0)].  A negative [n] converts to a size
    the vector cannot have. *)
Definition new_permutation_problem (n : Z) : outcome permutation_problem :=
  if n <? 0 then Throw length_error
  else Ok {| pi_m := seqZ 0 n; cost_m := fzero |}.

Definition size (p : permutation_problem) : Z := Z.of_nat (length (pi_m p)).

Definition cost_function (p : permutation_problem) : gol_type := cost_m p.

Definition update_cost (p : permutation_problem) : permutation_problem :=
  {| pi_m := pi_m p; cost_m := compute_cost p |}.

(** [v[i]] for an [int] index. *)
Definition vector_at (v : list Z) (i : Z) : outcome Z :=
  if bool_decide (0 ≤ i < Z.of_nat (length v)) then
    match v !! Z.to_nat i with
    | Some x => Ok x
    | None => Undefined
    end
  else Undefined.

(** [std::swap(v[i], v[j])]. *)
Definition std_swap (v : list Z) (i j : Z) : outcome (list Z) :=
  a ← vector_at v i;
  b ← vector_at v j;
  Ok (<[Z.to_nat j := a]> (<[Z.to_nat i := b]> v)).

(** [apply_swap]: the cost is updated first, with [evaluate_swap] reading
    the object before the exchange. *)
Definition apply_swap (i j : Z) (p : permutation_problem)
    : outcome permutation_problem :=
  let p' := {| pi_m := pi_m p;
               cost_m := fadd (cost_m p) (evaluate_swap p i j) |} in
  v ← std_swap (pi_m p') i j;
  Ok {| pi_m := v; cost_m := cost_m p' |}.

(** [static_cast<permutation_problem &>(s)]: no run-time check. *)
Definition static_cast_permutation (s : feasible_solution)
    : outcome permutation_problem :=
  match s with
  | permutation p => Ok p
  | _ => Undefined
  end.

(** [dynamic_cast<const permutation_problem &>(s)]. *)
Definition dynamic_cast_permutation (s : feasible_solution)
    : outcome permutation_problem :=
  match s with
  | permutation p => Ok p
  | _ => Throw bad_cast
  end.

(** [dynamic_cast<const evaluable_solution &>(fs).cost_function()]. *)
Definition dynamic_cast_cost (fs : feasible_solution) : outcome gol_type :=
  match fs with
  | other_solution => Throw bad_cast
  | evaluable c => Ok c
  | permutation p => Ok (cost_function p)
  end.

(** [static_cast<evaluable_solution &>(fs).cost_function()]. *)
Definition static_cast_cost (fs : feasible_solution) : outcome gol_type :=
  match fs with
  | other_solution => Undefined
  | evaluable c => Ok c
  | permutation p => Ok (cost_function p)
  end.

(** [copy_from] on the object [this]: the result of the call together with
    the object as the call leaves it (on a throw, as it was at the throw). *)
Definition copy_from (this : permutation_problem) (other : feasible_solution)
    : outcome unit * permutation_problem :=
  match dynamic_cast_permutation other with
  | Ok o =>
      let this1 := {| pi_m := pi_m o; cost_m := cost_m this |} in
      (Ok tt, {| pi_m := pi_m this1; cost_m := cost_m o |})
  | Throw e => (Throw e, this)
  | Abort => (Abort, this)
  | Undefined => (Undefined, this)
  | OutOfFuel => (OutOfFuel, this)
  end.

(** A finite sequence of [apply_swap] calls. *)
Fixpoint apply_swaps (swaps : list (Z * Z)) (p : permutation_problem)
    : outcome permutation_problem :=
  match swaps with
  | [] => Ok p
  | (i, j) :: swaps' => p' ← apply_swap i j p; apply_swaps swaps' p'
  end.

(** [pi_m] holds each of 0, ..., n-1 once. *)
Definition is_permutation (p : permutation_problem) : Prop :=
  pi_m p ≡ₚ seqZ 0 (size p).

(** *** Moves *)

(** The two concrete [mana_move] classes with their data members. *)
Inductive move : Type :=
  | SwapElements (p1 p2 : Z)
  | InvertSubsequence (p1 p2 : Z).

(** Constructor [swap_elements(from, to)]. *)
Definition swap_elements (from to : Z) : move :=
  SwapElements (Z.min from to) (Z.max from to).

(** Constructor [invert_subsequence(from, to)]. *)
Definition invert_subsequence (from to : Z) : move :=
  InvertSubsequence from to.

(** [top] of [invert_subsequence::apply] and [::evaluate]. *)
Definition invert_top (size p1 p2 : Z) : Z :=
  if p1 <? p2 then p2 - p1 + 1 else size + p2 - p1 + 1.

(** [from] and [to] of round [ii], with the two assertions. *)
Definition invert_indices (size p1 p2 ii : Z) : outcome (Z * Z) :=
  from ← c_rem (p1 + ii) size;
  to ← c_rem (size + p2 - ii) size;
  c_assert (bool_decide (from >= 0) && (from <? size));;
  c_assert (bool_decide (to >= 0) && (to <? size));;
  Ok (from, to).

Definition invert_apply_body (size p1 p2 ii : Z) (sol : permutation_problem)
    : outcome permutation_problem :=
  '(from, to) ← invert_indices size p1 p2 ii;
  apply_swap from to sol.

Definition invert_evaluate_body (sol : permutation_problem)
    (size p1 p2 ii : Z) (eval : gol_type) : outcome gol_type :=
  '(from, to) ← invert_indices size p1 p2 ii;
  Ok (fadd eval (evaluate_swap sol from to)).

(** [move::evaluate], dispatched on the class of the move. *)
Definition evaluate (m : move) (s : feasible_solution) : outcome gol_type :=
  match m with
  | SwapElements p1 p2 =>
      sol ← static_cast_permutation s;
      Ok (fadd (cost_function sol) (evaluate_swap sol p1 p2))
  | InvertSubsequence p1 p2 =>
      sol ← static_cast_permutation s;
      let size := size sol in
      let top := invert_top size p1 p2 in
      for_upto (Z.quot top 2) (invert_evaluate_body sol size p1 p2) fzero
  end.

(** [move::apply], dispatched on the class of the move. *)
Definition apply (m : move) (s : feasible_solution)
    : outcome feasible_solution :=
  match m with
  | SwapElements p1 p2 =>
      sol ← static_cast_permutation s;
      sol' ← apply_swap p1 p2 sol;
      Ok (permutation sol')
  | InvertSubsequence p1 p2 =>
      sol ← static_cast_permutation s;
      let size := size sol in
      let top := invert_top size p1 p2 in
      sol' ← for_upto (Z.quot top 2) (invert_apply_body size p1 p2) sol;
      Ok (permutation sol')
  end.

(** The specification of [invert_subsequence] in its own terms: the
    length of the circular arc from [p1] to [p2] inclusive, and the paired
    swaps that reverse it. *)
Definition arc_length (n p1 p2 : Z) : Z :=
  let r := (p2 - p1 + 1) `mod` n in if r =? 0 then n else r.

Definition arc_swaps (n p1 p2 : Z) : list (Z * Z) :=
  (λ k, ((p1 + k) `mod` n, (p2 - k) `mod` n)) <$>
    seqZ 0 (arc_length n p1 p2 `div` 2).

(** Where cell [x] of the vector comes from once the first [k] and the
    last [k] cells of the arc of length [len] that starts at [p1] and ends
    at [p2] have been exchanged. *)
Definition arc_source (n p1 p2 len k x : Z) : Z :=
  let d := (x - p1) `mod` n in
  if bool_decide (d < k ∨ len - k ≤ d < len)
  then (p1 + p2 - x) `mod` n else x.

(** *** Neighborhoods: the constructors *)

(** The inner loop of [swap_full_neighborhood]: [jj] from [ii + 1] up to
    [size]. *)
Definition swap_full_row (size ii : Z) (moves_m : list move)
    : outcome (list move) :=
  if size <? ii + 1 then Undefined
  else for_loop (Z.to_nat (size - (ii + 1))) (ii + 1)
         (λ jj q, Ok (q ++ [swap_elements ii jj])) moves_m.

(** [swap_full_neighborhood(int size)]: the deque [moves_m] it builds. *)
Definition swap_full_neighborhood (size : Z) : outcome (list move) :=
  for_upto (size - 1) (swap_full_row size) [].

Definition invert_full_row (size ii : Z) (moves_m : list move)
    : outcome (list move) :=
  for_upto size
    (λ jj q, Ok (if bool_decide (ii ≠ jj)
                 then q ++ [invert_subsequence ii jj] else q)) moves_m.

(** [invert_full_neighborhood(int size)]. *)
Definition invert_full_neighborhood (size : Z) : outcome (list move) :=
  for_upto size (invert_full_row size) [].

(** [swap_neighborhood(r, moves)]: [moves] copies of [swap_elements(0, 0)]
    ([moves] is [unsigned int]). *)
Definition swap_neighborhood (moves : nat) : outcome (list move) :=
  for_loop moves 0 (λ _ q, Ok (q ++ [swap_elements 0 0])) [].

(** *** Random perturbation *)

Section Random.
(** The generator and [int_range(rng, n)], a draw from [0, n). *)
Variable random_generator : Type.
Variable int_range : random_generator → Z → Z * random_generator.

(** [while (p1 == p2) p2 = int_range(rng, size);] *)
Fixpoint reroll (fuel : nat) (size p1 p2 : Z) (rng : random_generator)
    : outcome (Z * random_generator) :=
  if p1 =? p2 then
    match fuel with
    | O => OutOfFuel
    | S fuel' =>
        let '(p2', rng') := int_range rng size in
        reroll fuel' size p1 p2' rng'
    end
  else Ok (p2, rng).

Definition perturbate_body (fuel : nat) (_ : Z)
    (st : permutation_problem * random_generator)
    : outcome (permutation_problem * random_generator) :=
  let '(p, rng) := st in
  let '(p1, rng) := int_range rng (size p) in
  let '(p2, rng) := int_range rng (size p) in
  '(p2, rng) ← reroll fuel (size p) p1 p2 rng;
  p' ← apply_swap p1 p2 p;
  Ok (p', rng).

(** [perturbate(p, n, rng)] with [n] of type [unsigned int]. *)
Definition perturbate (fuel : nat) (p : permutation_problem) (n : nat)
    (rng : random_generator)
    : outcome (permutation_problem * random_generator) :=
  for_loop n 0 (perturbate_body fuel) (p, rng).

(** The permutation problems of size [n] that the operations of this file
    lead to from the constructed one. *)
Inductive reachable (n : Z) : permutation_problem → Prop :=
  | reach_new p :
      new_permutation_problem n = Ok p → reachable n p
  | reach_apply_swap p i j p' :
      reachable n p → 0 ≤ i < n → 0 ≤ j < n →
      apply_swap i j p = Ok p' → reachable n p'
  | reach_invert p p1 p2 p' :
      reachable n p → 0 ≤ p1 < n → 0 ≤ p2 < n →
      apply (invert_subsequence p1 p2) (permutation p) = Ok (permutation p') →
      reachable n p'
  | reach_perturbate p fuel k rng p' rng' :
      reachable n p →
      perturbate fuel p k rng = Ok (p', rng') → reachable n p'.

End Random.

End Model.

Arguments permutation_problem : clear implicits.
Arguments feasible_solution : clear implicits.

(** ** termination-criteria.hh *)

Section Termination.
Context {double : Type} {ops : FloatOps double}.
Local Abbreviation gol_type := double.

(** The data members of [noimprove_termination_criteria]. *)
Record noimprove_data : Type := mk_noimprove {
  best_cost_m : gol_type;
  max_noimprove_m : Z;
  iterations_left_m : Z;
  total_iterations_m : Z;
  resets_m : Z;
  second_guess_m : Z;
  epsilon_m : gol_type
}.

(** The class of a node of the chain with its own data members. *)
Inductive criterion : Type :=
  | base_criteria
  | iteration_criteria (max_m iterations_m : Z)
  | noimprove_criteria (d : noimprove_data)
  | threshold_criteria (level_m epsilon_m : gol_type)
  | forever.

(** A pointer to a [termination_criteria_chain]: null, or a node holding
    its [next_m]. *)
Inductive termination_criteria_chain : Type :=
  | null_chain
  | chain_node (c : criterion) (next_m : termination_criteria_chain).

(** Constructors without a [next] argument. *)
Definition iteration_termination_criteria (max : Z)
    : termination_criteria_chain :=
  chain_node (iteration_criteria max max) null_chain.

Definition new_noimprove (max : Z) (epsilon : gol_type) : noimprove_data :=
  {| best_cost_m := fmax_value;
     max_noimprove_m := max;
     iterations_left_m := max;
     total_iterations_m := 0;
     resets_m := 0;
     second_guess_m := 0;
     epsilon_m := epsilon |}.

Definition noimprove_termination_criteria (max : Z) (epsilon : gol_type)
    : termination_criteria_chain :=
  chain_node (noimprove_criteria (new_noimprove max epsilon)) null_chain.

(** Constructors with a [next] argument. *)
Definition iteration_termination_criteria_next
    (next : termination_criteria_chain) (max : Z)
    : termination_criteria_chain :=
  chain_node (iteration_criteria max max) next.

Definition noimprove_termination_criteria_next
    (next : termination_criteria_chain) (max : Z) (epsilon : gol_type)
    : termination_criteria_chain :=
  chain_node (noimprove_criteria (new_noimprove max epsilon)) next.

(** The [if] block that opens [noimprove_termination_criteria::operator()]. *)
Definition noimprove_observe (current_cost : gol_type) (d : noimprove_data)
    : noimprove_data :=
  if fltb current_cost (fsub (best_cost_m d) (epsilon_m d)) then
    {| best_cost_m := current_cost;
       max_noimprove_m := max_noimprove_m d;
       iterations_left_m := max_noimprove_m d;
       total_iterations_m := total_iterations_m d;
       resets_m := resets_m d + 1;
       second_guess_m :=
         Z.max (second_guess_m d) (max_noimprove_m d - iterations_left_m d);
       epsilon_m := epsilon_m d |}
  else d.

(** [total_iterations_m++; --iterations_left_m;] *)
Definition noimprove_count (d : noimprove_data) : noimprove_data :=
  {| best_cost_m := best_cost_m d;
     max_noimprove_m := max_noimprove_m d;
     iterations_left_m := iterations_left_m d - 1;
     total_iterations_m := total_iterations_m d + 1;
     resets_m := resets_m d;
     second_guess_m := second_guess_m d;
     epsilon_m := epsilon_m d |}.

(** [operator()] on the node a pointer refers to, giving the answer and the
    chain with the members as the call leaves them.  On the null pointer it
    is the [else] branch of [termination_criteria_chain::operator()]. *)
Fixpoint chain_call (tc : termination_criteria_chain)
    (fs : feasible_solution double)
    : outcome (bool * termination_criteria_chain) :=
  match tc with
  | null_chain => Ok (false, null_chain)
  | chain_node c next_m =>
      match c with
      | base_criteria =>
          '(r, next') ← chain_call next_m fs;
          Ok (r, chain_node c next')
      | iteration_criteria max_m iterations_m =>
          if iterations_m <=? 0 then Ok (true, tc)
          else
            '(r, next') ← chain_call next_m fs;
            Ok (r, chain_node (iteration_criteria max_m (iterations_m - 1))
                     next')
      | noimprove_criteria d =>
          current_cost ← dynamic_cast_cost fs;
          let d := noimprove_observe current_cost d in
          if iterations_left_m d <=? 0
          then Ok (true, chain_node (noimprove_criteria d) next_m)
          else
            '(r, next') ← chain_call next_m fs;
            Ok (r, chain_node (noimprove_criteria (noimprove_count d)) next')
      | threshold_criteria level_m epsilon_m =>
          current_cost ← dynamic_cast_cost fs;
          if fltb current_cost (fadd level_m epsilon_m) then Ok (true, tc)
          else
            '(r, next') ← chain_call next_m fs;
            Ok (r, chain_node c next')
      | forever => Ok (false, tc)
      end
  end.

(** [reset()] of a node's own members. *)
Definition criterion_reset (c : criterion) : criterion :=
  match c with
  | iteration_criteria max_m _ => iteration_criteria max_m max_m
  | noimprove_criteria d =>
      noimprove_criteria
        {| best_cost_m := fmax_value;
           max_noimprove_m := max_noimprove_m d;
           iterations_left_m := max_noimprove_m d;
           total_iterations_m := 0;
           resets_m := 0;
           second_guess_m := 0;
           epsilon_m := epsilon_m d |}
  | _ => c
  end.

(** [reset()] down the chain. *)
Fixpoint chain_reset (tc : termination_criteria_chain)
    : termination_criteria_chain :=
  match tc with
  | null_chain => null_chain
  | chain_node c next_m => chain_node (criterion_reset c) (chain_reset next_m)
  end.

(** Successive invocations of one chain, on the solution handed over at each
    of them. *)
Fixpoint chain_run (tc : termination_criteria_chain)
    (fss : list (feasible_solution double))
    : outcome (list bool * termination_criteria_chain) :=
  match fss with
  | [] => Ok ([], tc)
  | fs :: fss' =>
      '(r, tc') ← chain_call tc fs;
      '(rs, tc'') ← chain_run tc' fss';
      Ok (r :: rs, tc'')
  end.

(** The countdown of a [noimprove] node at the head of a chain. *)
Definition head_noimprove (tc : termination_criteria_chain)
    : option noimprove_data :=
  match tc with
  | chain_node (noimprove_criteria d) _ => Some d
  | _ => None
  end.

(** The specification of [noimprove] in its own terms: which invocations
    improve the tracked best cost by more than epsilon, and how long the
    unbroken run of invocations without such an improvement is at each
    invocation, the invocation itself included. *)
Fixpoint quiet_runs (best epsilon : gol_type) (run : Z) (costs : list gol_type)
    : list Z :=
  match costs with
  | [] => []
  | c :: costs' =>
      if fltb c (fsub best epsilon)
      then 0 :: quiet_runs c epsilon 0 costs'
      else (run + 1) :: quiet_runs best epsilon (run + 1) costs'
  end.

(** What relates the countdown of a node to the length [run] of the
    current run of invocations without improvement. *)
Definition countdown_tracks (max : Z) (d : noimprove_data) (run : Z)
    : Prop :=
  max_noimprove_m d = max ∧ -1 ≤ run ∧
  ((iterations_left_m d ≤ 0 ∧ max ≤ run + 1) ∨
   (0 < iterations_left_m d ∧ iterations_left_m d = max - run - 1)).

End Termination.

Arguments noimprove_data : clear implicits.
Arguments criterion : clear implicits.
Arguments termination_criteria_chain : clear implicits.

(** ** simulated-annealing.hh *)

Section Cooling.
Context {double : Type} {ops : FloatOps double}.

(** The two cooling schedules of the library with their data member. *)
Inductive cooling_schedule : Type :=
  | ExponentialCooling (factor_m : double)
  | LinearCooling (decrement_m : double).

(** Constructor [exponential_cooling(alpha)]. *)
Definition exponential_cooling (alpha : double) : outcome cooling_schedule :=
  if fleb fone alpha then Throw (runtime_error "alpha must be < 1")
  else Ok (ExponentialCooling alpha).

(** Constructor [linear_cooling(delta)]. *)
Definition linear_cooling (delta : double) : outcome cooling_schedule :=
  if fleb delta fzero then Throw (runtime_error "delta must be > 0")
  else Ok (LinearCooling delta).

(** [operator()(temp, fs)] of the two schedules. *)
Definition cooling_call (cs : cooling_schedule) (temp : double)
    (fs : feasible_solution double) : double :=
  match cs with
  | ExponentialCooling factor_m => fmul temp factor_m
  | LinearCooling decrement_m => std_max fzero (fsub temp decrement_m)
  end.

End Cooling.

Arguments cooling_schedule : clear implicits.

(** The values of [step_m] that [search] assigns. *)
Inductive step_t : Type :=
  | MOVE_MADE
  | IMPROVEMENT_MADE.

Section Annealing.
Context {double : Type} {ops : FloatOps double}.

(** The collaborators of the search, each behind the interface the
    template uses: the moves a [move_manager_type] iterates over, the
    manager with [refresh] and [begin()]..[end()], the solution recorder
    with [accept], the cooling schedule with [operator()], and the
    uniform generator [gen()]. *)
Context {move_t move_manager_t solution_recorder cooling_schedule_t
         generator : Type}.
Variable move_evaluate : move_t → feasible_solution double → outcome double.
Variable move_apply
  : move_t → feasible_solution double → outcome (feasible_solution double).
Variable refresh
  : move_manager_t → feasible_solution double → outcome move_manager_t.
Variable begin_end : move_manager_t → list move_t.
Variable accept : solution_recorder → feasible_solution double
                  → outcome (bool * solution_recorder).
Variable schedule : cooling_schedule_t → double → feasible_solution double
                    → outcome (double * cooling_schedule_t).
Variable gen : generator → double * generator.

(** The calls [search] makes on its collaborators. *)
Inductive call : Type :=
  | call_termination
  | call_refresh
  | call_evaluate (m : move_t)
  | call_gen
  | call_apply (m : move_t)
  | call_accept
  | call_notify (s : step_t)
  | call_schedule.

(** The members of the search object; [calls_m] is not a member: it keeps
    the calls made so far, in order, so that they can be talked about. *)
Record simulated_annealing : Type := mk_simulated_annealing {
  working_solution_m : feasible_solution double;
  solution_recorder_m : solution_recorder;
  moves_m : move_manager_t;
  current_move_m : option move_t;
  step_m : option step_t;
  termination_criteria_m : termination_criteria_chain double;
  cooling_schedule_m : cooling_schedule_t;
  starting_temp_m : double;
  stop_temp_m : double;
  current_temp_m : double;
  K_m : double;
  gen_m : generator;
  calls_m : list call
}.

Definition set_working_solution (v : feasible_solution double)
    (sa : simulated_annealing) : simulated_annealing :=
  {| working_solution_m := v;
     solution_recorder_m := solution_recorder_m sa;
     moves_m := moves_m sa;
     current_move_m := current_move_m sa;
     step_m := step_m sa;
     termination_criteria_m := termination_criteria_m sa;
     cooling_schedule_m := cooling_schedule_m sa;
     starting_temp_m := starting_temp_m sa;
     stop_temp_m := stop_temp_m sa;
     current_temp_m := current_temp_m sa;
     K_m := K_m sa;
     gen_m := gen_m sa;
     calls_m := calls_m sa |}.

Definition set_solution_recorder (v : solution_recorder)
    (sa : simulated_annealing) : simulated_annealing :=
  {| working_solution_m := working_solution_m sa;
     solution_recorder_m := v;
     moves_m := moves_m sa;
     current_move_m := current_move_m sa;
     step_m := step_m sa;
     termination_criteria_m := termination_criteria_m sa;
     cooling_schedule_m := cooling_schedule_m sa;
     starting_temp_m := starting_temp_m sa;
     stop_temp_m := stop_temp_m sa;
     current_temp_m := current_temp_m sa;
     K_m := K_m sa;
     gen_m := gen_m sa;
     calls_m := calls_m sa |}.

Definition set_moves (v : move_manager_t)
    (sa : simulated_annealing) : simulated_annealing :=
  {| working_solution_m := working_solution_m sa;
     solution_recorder_m := solution_recorder_m sa;
     moves_m := v;
     current_move_m := current_move_m sa;
     step_m := step_m sa;
     termination_criteria_m := termination_criteria_m sa;
     cooling_schedule_m := cooling_schedule_m sa;
     starting_temp_m := starting_temp_m sa;
     stop_temp_m := stop_temp_m sa;
     current_temp_m := current_temp_m sa;
     K_m := K_m sa;
     gen_m := gen_m sa;
     calls_m := calls_m sa |}.

Definition set_current_move (v : option move_t)
    (sa : simulated_annealing) : simulated_annealing :=
  {| working_solution_m := working_solution_m sa;
     solution_recorder_m := solution_recorder_m sa;
     moves_m := moves_m sa;
     current_move_m := v;
     step_m := step_m sa;
     termination_criteria_m := termination_criteria_m sa;
     cooling_schedule_m := cooling_schedule_m sa;
     starting_temp_m := starting_temp_m sa;
     stop_temp_m := stop_temp_m sa;
     current_temp_m := current_temp_m sa;
     K_m := K_m sa;
     gen_m := gen_m sa;
     calls_m := calls_m sa |}.

Definition set_step (v : option step_t)
    (sa : simulated_annealing) : simulated_annealing :=
  {| working_solution_m := working_solution_m sa;
     solution_recorder_m := solution_recorder_m sa;
     moves_m := moves_m sa;
     current_move_m := current_move_m sa;
     step_m := v;
     termination_criteria_m := termination_criteria_m sa;
     cooling_schedule_m := cooling_schedule_m sa;
     starting_temp_m := starting_temp_m sa;
     stop_temp_m := stop_temp_m sa;
     current_temp_m := current_temp_m sa;
     K_m := K_m sa;
     gen_m := gen_m sa;
     calls_m := calls_m sa |}.

Definition set_termination_criteria (v : termination_criteria_chain double)
    (sa : simulated_annealing) : simulated_annealing :=
  {| working_solution_m := working_solution_m sa;
     solution_recorder_m := solution_recorder_m sa;
     moves_m := moves_m sa;
     current_move_m := current_move_m sa;
     step_m := step_m sa;
     termination_criteria_m := v;
     cooling_schedule_m := cooling_schedule_m sa;
     starting_temp_m := starting_temp_m sa;
     stop_temp_m := stop_temp_m sa;
     current_temp_m := current_temp_m sa;
     K_m := K_m sa;
     gen_m := gen_m sa;
     calls_m := calls_m sa |}.

Definition set_cooling_schedule (v : cooling_schedule_t)
    (sa : simulated_annealing) : simulated_annealing :=
  {| working_solution_m := working_solution_m sa;
     solution_recorder_m := solution_recorder_m sa;
     moves_m := moves_m sa;
     current_move_m := current_move_m sa;
     step_m := step_m sa;
     termination_criteria_m := termination_criteria_m sa;
     cooling_schedule_m := v;
     starting_temp_m := starting_temp_m sa;
     stop_temp_m := stop_temp_m sa;
     current_temp_m := current_temp_m sa;
     K_m := K_m sa;
     gen_m := gen_m sa;
     calls_m := calls_m sa |}.

Definition set_current_temp (v : double)
    (sa : simulated_annealing) : simulated_annealing :=
  {| working_solution_m := working_solution_m sa;
     solution_recorder_m := solution_recorder_m sa;
     moves_m := moves_m sa;
     current_move_m := current_move_m sa;
     step_m := step_m sa;
     termination_criteria_m := termination_criteria_m sa;
     cooling_schedule_m := cooling_schedule_m sa;
     starting_temp_m := starting_temp_m sa;
     stop_temp_m := stop_temp_m sa;
     current_temp_m := v;
     K_m := K_m sa;
     gen_m := gen_m sa;
     calls_m := calls_m sa |}.

Definition set_gen (v : generator)
    (sa : simulated_annealing) : simulated_annealing :=
  {| working_solution_m := working_solution_m sa;
     solution_recorder_m := solution_recorder_m sa;
     moves_m := moves_m sa;
     current_move_m := current_move_m sa;
     step_m := step_m sa;
     termination_criteria_m := termination_criteria_m sa;
     cooling_schedule_m := cooling_schedule_m sa;
     starting_temp_m := starting_temp_m sa;
     stop_temp_m := stop_temp_m sa;
     current_temp_m := current_temp_m sa;
     K_m := K_m sa;
     gen_m := v;
     calls_m := calls_m sa |}.

Definition set_calls (v : list call)
    (sa : simulated_annealing) : simulated_annealing :=
  {| working_solution_m := working_solution_m sa;
     solution_recorder_m := solution_recorder_m sa;
     moves_m := moves_m sa;
     current_move_m := current_move_m sa;
     step_m := step_m sa;
     termination_criteria_m := termination_criteria_m sa;
     cooling_schedule_m := cooling_schedule_m sa;
     starting_temp_m := starting_temp_m sa;
     stop_temp_m := stop_temp_m sa;
     current_temp_m := current_temp_m sa;
     K_m := K_m sa;
     gen_m := gen_m sa;
     calls_m := v |}.

Definition log (c : call) (sa : simulated_annealing)
    : simulated_annealing :=
  set_calls (calls_m sa ++ [c]) sa.

(** The condition of the [while]: the chain is asked first, the
    temperature is compared only when the chain does not stop. *)
Definition search_condition (sa : simulated_annealing)
    : outcome (bool * simulated_annealing) :=
  '(stop, tc) ← chain_call (termination_criteria_m sa) (working_solution_m sa);
  let sa := log call_termination (set_termination_criteria tc sa) in
  Ok (negb stop && fltb (stop_temp_m sa) (current_temp_m sa), sa).

(** [delta < 0 || gen() < exp(-delta / (K_m * current_temp_m))]. *)
Definition metropolis (delta : double) (sa : simulated_annealing)
    : bool * simulated_annealing :=
  if fltb delta fzero then (true, sa)
  else
    let '(u, g) := gen (gen_m sa) in
    let sa := log call_gen (set_gen g sa) in
    (fltb u (fexp (fdiv (fneg delta) (fmul (K_m sa) (current_temp_m sa)))), sa).

(** The block of an accepted move, up to the [break]. *)
Definition accept_move (movit : move_t) (sa : simulated_annealing)
    : outcome simulated_annealing :=
  ws ← move_apply movit (working_solution_m sa);
  let sa := log (call_apply movit) (set_working_solution ws sa) in
  let sa := set_current_move (Some movit) sa in
  '(improved, rec) ← accept (solution_recorder_m sa) (working_solution_m sa);
  let sa := log call_accept (set_solution_recorder rec sa) in
  let sa :=
    if improved : bool
    then log (call_notify IMPROVEMENT_MADE) (set_step (Some IMPROVEMENT_MADE) sa)
    else sa in
  Ok (log (call_notify MOVE_MADE) (set_step (Some MOVE_MADE) sa)).

(** The [for] over the moves from [movit] to [end()]. *)
Fixpoint scan_moves (actual_cost : double) (movs : list move_t)
    (sa : simulated_annealing) : outcome simulated_annealing :=
  match movs with
  | [] => Ok sa
  | movit :: movs' =>
      cost ← move_evaluate movit (working_solution_m sa);
      let sa := log (call_evaluate movit) sa in
      let delta := fsub cost actual_cost in
      let '(accepted, sa) := metropolis delta sa in
      if accepted then accept_move movit sa
      else scan_moves actual_cost movs' sa
  end.

(** The body of the [while]. *)
Definition search_round (sa : simulated_annealing)
    : outcome simulated_annealing :=
  actual_cost ← static_cast_cost (working_solution_m sa);
  best_cost ← static_cast_cost (working_solution_m sa);
  mm ← refresh (moves_m sa) (working_solution_m sa);
  let sa := log call_refresh (set_moves mm sa) in
  sa ← scan_moves actual_cost (begin_end (moves_m sa)) sa;
  '(temp, cs) ← schedule (cooling_schedule_m sa) (current_temp_m sa)
                  (working_solution_m sa);
  Ok (log call_schedule (set_current_temp temp (set_cooling_schedule cs sa))).

(** The [while] loop, for at most [fuel] evaluations of its condition. *)
Fixpoint search_loop (fuel : nat) (sa : simulated_annealing)
    : outcome simulated_annealing :=
  match fuel with
  | O => OutOfFuel
  | S fuel' =>
      '(go, sa) ← search_condition sa;
      if go : bool then sa ← search_round sa; search_loop fuel' sa
      else Ok sa
  end.

(** [search()]. *)
Definition search (fuel : nat) (sa : simulated_annealing)
    : outcome simulated_annealing :=
  search_loop fuel (set_current_temp (starting_temp_m sa) sa).

(** The specification of the inner scan in its own terms: the moves of
    [movs] are taken in order against the working solution [ws] at
    temperature [temp]; a move is rejected when its delta is not negative
    and the draw made for it is not below [exp(-delta / (K * temp))].  The
    answer is the generator after the draws, if every move of [movs] is
    rejected. *)
Fixpoint rejected_run (K temp actual_cost : double)
    (ws : feasible_solution double) (movs : list move_t) (g : generator)
    : option generator :=
  match movs with
  | [] => Some g
  | m :: movs' =>
      match move_evaluate m ws with
      | Ok cost =>
          let delta := fsub cost actual_cost in
          if fltb delta fzero then None
          else
            let '(u, g') := gen g in
            if fltb u (fexp (fdiv (fneg delta) (fmul K temp))) then None
            else rejected_run K temp actual_cost ws movs' g'
      | _ => None
      end
  end.

(** The moves evaluated and the moves applied, in the order of the calls. *)
Definition evaluated (cs : list call) : list move_t :=
  omap (λ c, match c with call_evaluate m => Some m | _ => None end) cs.

Definition applied (cs : list call) : list move_t :=
  omap (λ c, match c with call_apply m => Some m | _ => None end) cs.

Definition notified (cs : list call) : list step_t :=
  omap (λ c, match c with call_notify s => Some s | _ => None end) cs.

End Annealing.

Arguments call : clear implicits.
Arguments simulated_annealing : clear implicits.

(** ** model.hh: identity of moves, [randomize_move] *)

(** The data members [p1] and [p2] of a move. *)
Definition move_fields (m : move) : Z * Z :=
  match m with
  | SwapElements p1 p2 => (p1, p2)
  | InvertSubsequence p1 p2 => (p1, p2)
  end.

(** [operator==]: the [dynamic_cast] of the argument to the class of
    [this] throws on a move of the other class, and the handler answers
    false. *)
Definition move_eq (this o : move) : bool :=
  match this, o with
  | SwapElements p1 p2, SwapElements q1 q2 => (p1 =? q1) && (p2 =? q2)
  | InvertSubsequence p1 p2, InvertSubsequence q1 q2 =>
      (p1 =? q1) && (p2 =? q2)
  | _, _ => false
  end.

(** [a << 16] on a 32-bit [int]: undefined for a negative [a] and when
    the result is not an [int]. *)
Definition c_shiftl16 (a : Z) : outcome Z :=
  if bool_decide (0 ≤ a ∧ Z.shiftl a 16 < 2 ^ 31) then Ok (Z.shiftl a 16)
  else Undefined.

(** The conversion of an [int] to a 64-bit [size_t]. *)
Definition to_size_t (a : Z) : Z := a `mod` 2 ^ 64.

(** [hash()]: [(p1) << 16 ^ (p2)], the shift binding tighter. *)
Definition hash (m : move) : outcome Z :=
  let '(p1, p2) := move_fields m in
  h ← c_shiftl16 p1;
  Ok (to_size_t (Z.lxor h p2)).

(** [clone()] and the default [opposite_of()]. *)
Definition clone (m : move) : move :=
  match m with
  | SwapElements p1 p2 => swap_elements p1 p2
  | InvertSubsequence p1 p2 => invert_subsequence p1 p2
  end.

Definition opposite_of (m : move) : move := clone m.

(** [change(from, to)]. *)
Definition change (from to : Z) (m : move) : move :=
  match m with
  | SwapElements _ _ => SwapElements (Z.min from to) (Z.max from to)
  | InvertSubsequence _ _ => InvertSubsequence from to
  end.

(** The moves a full neighborhood is expected to hold, in the order of the
    two loops. *)
Definition ordered_pairs (size : Z) : list move :=
  i ← seqZ 0 (size - 1);
  SwapElements i <$> seqZ (i + 1) (size - (i + 1)).

Definition distinct_pairs (size : Z) : list move :=
  i ← seqZ 0 size;
  InvertSubsequence i <$> filter (λ j, i ≠ j) (seqZ 0 size).

Section Stochastic.
Variable random_generator : Type.
Variable int_range : random_generator → Z → Z * random_generator.

(** [randomize_move(m, size)]: the fields it stores in [m], whatever [m]
    held. *)
Definition randomize_move (fuel : nat) (size : Z) (rng : random_generator)
    : outcome (move * random_generator) :=
  let '(p1, rng) := int_range rng size in
  let '(p2, rng) := int_range rng size in
  '(p2, rng) ← reroll random_generator int_range fuel size p1 p2 rng;
  Ok (SwapElements (Z.min p1 p2) (Z.max p1 p2), rng).

End Stochastic.

(** A move as [randomize_move] is expected to leave it for the size [n]: a
    [swap_elements] with [0 <= p1 < p2 < n]. *)
Definition normal_swap (n : Z) (m : move) : Prop :=
  ∃ p1 p2, m = SwapElements p1 p2 ∧ 0 ≤ p1 ∧ p1 < p2 ∧ p2 < n.

(** ** termination-criteria.hh: the cost threshold, counters *)

Section TerminationMore.
Context {double : Type} {ops : FloatOps double}.

Definition threshold_termination_criteria (level epsilon : double)
    : termination_criteria_chain double :=
  chain_node (threshold_criteria level epsilon) null_chain.

Definition threshold_termination_criteria_next
    (next : termination_criteria_chain double) (level epsilon : double)
    : termination_criteria_chain double :=
  chain_node (threshold_criteria level epsilon) next.

(** Which invocations have a cost below the tracked best by more than
    epsilon. *)
Fixpoint improving_calls (best epsilon : double) (costs : list double)
    : list bool :=
  match costs with
  | [] => []
  | c :: costs' =>
      if fltb c (fsub best epsilon)
      then true :: improving_calls c epsilon costs'
      else false :: improving_calls best epsilon costs'
  end.

(** The number of answers [b] in a list of answers. *)
Definition count_answers (b : bool) (rs : list bool) : Z :=
  Z.of_nat (length (filter (λ r, r = b) rs)).

End TerminationMore.

(** ** simulated-annealing.hh: rounds *)

(** The number of rounds in a list of calls: each round ends with its call
    of the cooling schedule. *)
Definition rounds {move_t : Type} (cs : list (call move_t)) : nat :=
  length (omap (λ c, match c with
                     | call_schedule => Some tt
                     | _ => None
                     end) cs).

(** What a scan of the moves leaves as it was. *)
Definition same_setup {double move_t move_manager_t solution_recorder
    cooling_schedule_t generator : Type}
    (a b : simulated_annealing double move_t move_manager_t
             solution_recorder cooling_schedule_t generator) : Prop :=
  moves_m a = moves_m b ∧
  termination_criteria_m a = termination_criteria_m b ∧
  cooling_schedule_m a = cooling_schedule_m b ∧
  starting_temp_m a = starting_temp_m b ∧
  stop_temp_m a = stop_temp_m b ∧
  current_temp_m a = current_temp_m b ∧
  K_m a = K_m b.

(** What an evaluation of the condition of the [while] is expected to
    leave as it was: every member but the termination chain (and the
    current temperature, which [search] sets before the first
    evaluation). *)
Definition condition_frame {double move_t move_manager_t solution_recorder
    cooling_schedule_t generator : Type}
    (a b : simulated_annealing double move_t move_manager_t
             solution_recorder cooling_schedule_t generator) : Prop :=
  working_solution_m a = working_solution_m b ∧
  solution_recorder_m a = solution_recorder_m b ∧
  moves_m a = moves_m b ∧
  current_move_m a = current_move_m b ∧
  step_m a = step_m b ∧
  cooling_schedule_m a = cooling_schedule_m b ∧
  starting_temp_m a = starting_temp_m b ∧
  stop_temp_m a = stop_temp_m b ∧
  K_m a = K_m b ∧
  gen_m a = gen_m b.

(** What a round of the [while] is expected to leave as it was. *)
Definition round_frame {double move_t move_manager_t solution_recorder
    cooling_schedule_t generator : Type}
    (a b : simulated_annealing double move_t move_manager_t
             solution_recorder cooling_schedule_t generator) : Prop :=
  termination_criteria_m a = termination_criteria_m b ∧
  starting_temp_m a = starting_temp_m b ∧
  stop_temp_m a = stop_temp_m b ∧
  K_m a = K_m b.

(** ** Instances used in examples *)

(** Rational arithmetic in the place of [double]: exact on the values of
    the examples.  [exp_stand_in] is a rational function in the place of
    [exp]; no theorem depends on it. *)
Module Rational.

Definition exp_stand_in (x : Q) : Q :=
  match (x ?= 0)%Q with
  | Lt => Qred (1 / (1 - x + x * x / 2))
  | _ => Qred (1 + x + x * x / 2)
  end.

Definition Qltb (a b : Q) : bool :=
  match (a ?= b)%Q with
  | Lt => true
  | _ => false
  end.

#[export] Instance Q_ops : FloatOps Q := {|
  fzero := 0%Q;
  fone := 1%Q;
  fadd := λ a b, Qred (a + b);
  fsub := λ a b, Qred (a - b);
  fmul := λ a b, Qred (a * b);
  fdiv := λ a b, Qred (a / b);
  fneg := λ a, Qred (- a);
  fltb := Qltb;
  fleb := Qle_bool;
  fexp := exp_stand_in;
  fmax_value := inject_Z ((2 ^ 53 - 1) * 2 ^ 971)
|}.

End Rational.

(** The permutation problem of the first scenario of the documentation:
    the cost is the sum over [i] of [pi[i] * i]. *)
Module Assignment.
Import Rational.

Definition cell (v : list Z) (i : Z) : Z := default 0 (v !! Z.to_nat i).

Definition weighted_sum (v : list Z) : Z :=
  foldr Z.add 0 ((λ i, cell v i * i) <$> seqZ 0 (Z.of_nat (length v))).

Definition compute_cost (p : permutation_problem Q) : Q :=
  inject_Z (weighted_sum (pi_m p)).

Definition evaluate_swap (p : permutation_problem Q) (i j : Z) : Q :=
  inject_Z ((cell (pi_m p) j - cell (pi_m p) i) * (i - j)).

(** A solution of size [n] after [update_cost]. *)
Definition start (v : list Z) : permutation_problem Q :=
  update_cost compute_cost {| pi_m := v; cost_m := 0%Q |}.

End Assignment.

(** A generator that counts: its draw from [0, n) is the count modulo
    [n]. *)
Module Counter.

Definition int_range (count n : Z) : Z * Z := (count `mod` n, count + 1).

End Counter.

(** A search on the assignment problem of size 4 at its optimum
    [pi = (3,2,1,0)], where every swap is worse, with the full swap
    neighborhood, exponential cooling by 0.9 from the temperature 10, an
    iteration cap of 500 and two scripted draws of the uniform
    generator. *)
Module Scenario.
Import Rational.

Definition evaluate : move → feasible_solution Q → outcome Q :=
  evaluate Assignment.evaluate_swap.

Definition apply : move → feasible_solution Q → outcome (feasible_solution Q) :=
  apply Assignment.evaluate_swap.

(** [refresh] of [swap_full_neighborhood]: an empty body. *)
Definition refresh (moves_m : list move) (s : feasible_solution Q)
    : outcome (list move) :=
  Ok moves_m.

Definition begin_end (moves_m : list move) : list move := moves_m.

(** Modelled from the spec: the solution recorder is not in these files;
    of the best-ever recorder only the best cost is kept here, and
    [accept] answers true when the cost of the solution is strictly below
    it. *)
Definition accept (best : Q) (s : feasible_solution Q) : outcome (bool * Q) :=
  cost ← static_cast_cost s;
  if fltb cost best then Ok (true, cost) else Ok (false, best).

Definition schedule (cs : cooling_schedule Q) (temp : Q)
    (s : feasible_solution Q) : outcome (Q * cooling_schedule Q) :=
  Ok (cooling_call cs temp s, cs).

(** The uniform generator with its draws scripted. *)
Definition gen (draws : list Q) : Q * list Q := (hd 0%Q draws, tl draws).

Definition neighborhood : list move :=
  [SwapElements 0 1; SwapElements 0 2; SwapElements 0 3;
   SwapElements 1 2; SwapElements 1 3; SwapElements 2 3].

Definition start
    : simulated_annealing Q move (list move) Q (cooling_schedule Q) (list Q) :=
  {| working_solution_m := permutation (Assignment.start [3; 2; 1; 0]);
     solution_recorder_m := 4%Q;
     moves_m := neighborhood;
     current_move_m := None;
     step_m := None;
     termination_criteria_m := iteration_termination_criteria 500;
     cooling_schedule_m := ExponentialCooling (9 # 10);
     starting_temp_m := 10%Q;
     stop_temp_m := (1 # 1000)%Q;
     current_temp_m := 10%Q;
     K_m := 1%Q;
     gen_m := [(99 # 100)%Q; (1 # 2)%Q];
     calls_m := [] |}.

End Scenario.

(** The working solutions and the moves of the scenario: permutation
    problems of size 4 and swaps of two of their cells. *)
Definition scenario_solution (ws : feasible_solution Q) : Prop :=
  ∃ p, ws = permutation p ∧ size p = 4.

Definition scenario_move (m : move) : Prop :=
  ∃ i j, m = SwapElements i j ∧ 0 ≤ i < 4 ∧ 0 ≤ j < 4.

(** * Properties *)

(** ** The permutation skeleton *)

Section ModelFacts.
Context {double : Type} {ops : FloatOps double}.
Variable evaluate_swap : permutation_problem double → Z → Z → double.

Local Abbreviation apply_swap' := (apply_swap evaluate_swap).

Lemma vector_at_lookup (v : list Z) (i : Z) :
  0 ≤ i < Z.of_nat (length v) →
  ∃ x, v !! Z.to_nat i = Some x ∧ vector_at v i = Ok x.
Proof.
  intros Hi. unfold vector_at.
  rewrite bool_decide_eq_true_2 by done.
  destruct (lookup_lt_is_Some_2 v (Z.to_nat i)) as [x Hx]; [lia|].
  exists x. by rewrite Hx.
Qed.

Lemma apply_swap_unfold (p : permutation_problem double) (i j : Z) :
  0 ≤ i < size p → 0 ≤ j < size p →
  ∃ a b, pi_m p !! Z.to_nat i = Some a ∧ pi_m p !! Z.to_nat j = Some b ∧
    apply_swap' i j p =
      Ok {| pi_m := <[Z.to_nat j := a]> (<[Z.to_nat i := b]> (pi_m p));
            cost_m := fadd (cost_m p) (evaluate_swap p i j) |}.
Proof.
  unfold size. intros Hi Hj.
  destruct (vector_at_lookup (pi_m p) i Hi) as (a & Ha & Ea).
  destruct (vector_at_lookup (pi_m p) j Hj) as (b & Hb & Eb).
  exists a, b. repeat split; try done.
  unfold apply_swap, std_swap; simpl. by rewrite Ea; simpl; rewrite Eb.
Qed.

(** Exchanging two cells of a list rearranges it. *)
Lemma exchange_Permutation (v : list Z) (i j : nat) (a b : Z) :
  v !! i = Some a → v !! j = Some b →
  <[j := a]> (<[i := b]> v) ≡ₚ v.
Proof.
  intros Ha Hb. apply Permutation_inj. split.
  { by rewrite !length_insert. }
  exists (λ k, if decide (k = i) then j else if decide (k = j) then i else k).
  split.
  - intros x y. repeat case_decide; intros; subst; congruence.
  - intros k. destruct (decide (k = j)) as [->|Hkj].
    + rewrite list_lookup_insert_eq.
      2:{ rewrite length_insert. by eapply lookup_lt_Some. }
      case_decide; subst; congruence.
    + rewrite list_lookup_insert_ne by done.
      destruct (decide (k = i)) as [->|Hki].
      * rewrite list_lookup_insert_eq by (by eapply lookup_lt_Some). done.
      * by rewrite list_lookup_insert_ne.
Qed.

Lemma apply_swap_size (p p' : permutation_problem double) (i j : Z) :
  apply_swap' i j p = Ok p' → size p' = size p.
Proof.
  unfold apply_swap, std_swap, size; simpl.
  destruct (vector_at (pi_m p) i); simpl; try done.
  destruct (vector_at (pi_m p) j); simpl; try done.
  intros [= <-]; simpl. by rewrite !length_insert.
Qed.

Lemma apply_swap_permutation (p : permutation_problem double) (i j : Z) :
  0 ≤ i < size p → 0 ≤ j < size p → is_permutation p →
  ∃ p', apply_swap' i j p = Ok p' ∧ size p' = size p ∧ is_permutation p'.
Proof.
  intros Hi Hj Hp.
  destruct (apply_swap_unfold p i j Hi Hj) as (a & b & Ha & Hb & E).
  eexists; split; [exact E|].
  assert (Hs : size {| pi_m := <[Z.to_nat j := a]> (<[Z.to_nat i := b]> (pi_m p));
            cost_m := fadd (cost_m p) (evaluate_swap p i j) |} = size p).
  { unfold size; simpl. by rewrite !length_insert. }
  split; [done|]. unfold is_permutation. rewrite Hs. simpl.
  by rewrite exchange_Permutation.
Qed.

(** What [apply_swap] leaves, member by member. *)
Lemma apply_swap_cells (p : permutation_problem double) (i j : Z) :
  0 ≤ i < size p → 0 ≤ j < size p →
  ∃ p', apply_swap' i j p = Ok p' ∧
    cost_m p' = fadd (cost_m p) (evaluate_swap p i j) ∧
    cost_function p' = cost_m p' ∧
    length (pi_m p') = length (pi_m p) ∧
    pi_m p' !! Z.to_nat i = pi_m p !! Z.to_nat j ∧
    pi_m p' !! Z.to_nat j = pi_m p !! Z.to_nat i ∧
    ∀ k : nat, k ≠ Z.to_nat i → k ≠ Z.to_nat j → pi_m p' !! k = pi_m p !! k.
Proof.
  intros Hi Hj.
  destruct (apply_swap_unfold p i j Hi Hj) as (a & b & Ha & Hb & E).
  eexists; split; [exact E|]. simpl.
  assert (Hli : (Z.to_nat i < length (pi_m p))%nat) by (by eapply lookup_lt_Some).
  assert (Hlj : (Z.to_nat j < length (pi_m p))%nat) by (by eapply lookup_lt_Some).
  repeat split.
  - by rewrite !length_insert.
  - destruct (decide (Z.to_nat i = Z.to_nat j)) as [e|ne].
    + rewrite e, list_lookup_insert_eq by (by rewrite length_insert).
      rewrite Hb. rewrite e in Ha. congruence.
    + rewrite list_lookup_insert_ne by done.
      by rewrite list_lookup_insert_eq, Hb.
  - by rewrite list_lookup_insert_eq, Ha by (by rewrite length_insert).
  - intros k Hki Hkj. by rewrite !list_lookup_insert_ne.
Qed.

(** C4.  For a permutation problem and indices within its size,
    [apply_swap(i, j)] returns normally; the cost it leaves is the cost
    before the call plus [evaluate_swap(i, j)] read from the object as it
    was before the exchange; the cells [i] and [j] of [pi_m] are exchanged
    and every other cell, and the length, is as before; [cost_function]
    returns the updated cost. *)
Theorem apply_swap_spec (p : permutation_problem double) (i j : Z) :
  0 ≤ i < size p → 0 ≤ j < size p →
  ∃ p', apply_swap' i j p = Ok p' ∧
    cost_m p' = fadd (cost_m p) (evaluate_swap p i j) ∧
    cost_function p' = cost_m p' ∧
    length (pi_m p') = length (pi_m p) ∧
    pi_m p' !! Z.to_nat i = pi_m p !! Z.to_nat j ∧
    pi_m p' !! Z.to_nat j = pi_m p !! Z.to_nat i ∧
    ∀ k : nat, k ≠ Z.to_nat i → k ≠ Z.to_nat j → pi_m p' !! k = pi_m p !! k.
Proof. apply apply_swap_cells. Qed.

(** *** The rounds of [invert_subsequence::apply] *)

(** The pair of indices the loop computes in round [k]. *)
Local Abbreviation round_pair n p1 p2 :=
  (λ k : Z, (Z.rem (p1 + k) n, Z.rem (n + p2 - k) n)).

Lemma invert_indices_ok (n p1 p2 ii : Z) :
  0 < n → 0 ≤ p1 → 0 ≤ p2 → 0 ≤ ii ≤ n →
  invert_indices n p1 p2 ii = Ok (round_pair n p1 p2 ii) ∧
  0 ≤ Z.rem (p1 + ii) n < n ∧ 0 ≤ Z.rem (n + p2 - ii) n < n.
Proof.
  intros Hn H1 H2 Hii.
  assert (Ha : 0 ≤ Z.rem (p1 + ii) n < n).
  { split; [apply Z.rem_nonneg; lia | apply Z.rem_bound_pos; lia]. }
  assert (Hb : 0 ≤ Z.rem (n + p2 - ii) n < n).
  { split; [apply Z.rem_nonneg; lia | apply Z.rem_bound_pos; lia]. }
  split; [|done].
  unfold invert_indices, c_rem.
  destruct (Z.eqb_spec n 0) as [|_]; [lia|]. simpl.
  rewrite !bool_decide_eq_true_2 by lia.
  destruct (Z.ltb_spec (Z.rem (p1 + ii) n) n); [|lia].
  destruct (Z.ltb_spec (Z.rem (n + p2 - ii) n) n); [|lia].
  done.
Qed.

Lemma invert_apply_body_eq (n p1 p2 ii : Z) (sol : permutation_problem double) :
  0 < n → 0 ≤ p1 → 0 ≤ p2 → 0 ≤ ii ≤ n →
  invert_apply_body evaluate_swap n p1 p2 ii sol =
  apply_swap' (Z.rem (p1 + ii) n) (Z.rem (n + p2 - ii) n) sol.
Proof.
  intros Hn H1 H2 Hii. unfold invert_apply_body.
  by destruct (invert_indices_ok n p1 p2 ii) as [-> _].
Qed.

Lemma invert_loop_swaps (n p1 p2 : Z) (count : nat) :
  0 < n → 0 ≤ p1 → 0 ≤ p2 →
  ∀ (ii : Z) (sol : permutation_problem double),
    0 ≤ ii → ii + Z.of_nat count ≤ n + 1 →
    for_loop count ii (invert_apply_body evaluate_swap n p1 p2) sol =
    apply_swaps evaluate_swap
      (round_pair n p1 p2 <$> seqZ ii (Z.of_nat count)) sol.
Proof.
  intros Hn H1 H2. induction count as [|count IH]; intros ii sol Hii Hc.
  { done. }
  rewrite seqZ_cons, fmap_cons by lia. cbn [for_loop apply_swaps].
  rewrite invert_apply_body_eq by lia.
  destruct (apply_swap' _ _ sol) as [sol'| | | |]; simpl; try done.
  rewrite IH by lia. do 3 f_equal. lia.
Qed.

Lemma round_pairs_in_range (n p1 p2 ii len : Z) :
  0 < n → 0 ≤ p1 → 0 ≤ p2 → 0 ≤ ii → ii + len ≤ n + 1 →
  Forall (λ ij : Z * Z, 0 ≤ ij.1 < n ∧ 0 ≤ ij.2 < n)
    (round_pair n p1 p2 <$> seqZ ii len).
Proof.
  intros Hn H1 H2 Hii Hl. apply Forall_fmap, Forall_forall.
  intros k Hk. apply elem_of_seqZ in Hk. simpl.
  by destruct (invert_indices_ok n p1 p2 k) as [_ ?]; [lia..|].
Qed.

(** A sequence of swaps within the size keeps the invariant at every
    step. *)
Lemma apply_swaps_permutation (swaps : list (Z * Z)) :
  ∀ p : permutation_problem double,
    is_permutation p →
    Forall (λ ij : Z * Z, 0 ≤ ij.1 < size p ∧ 0 ≤ ij.2 < size p) swaps →
    ∃ p', apply_swaps evaluate_swap swaps p = Ok p' ∧
          size p' = size p ∧ is_permutation p'.
Proof.
  induction swaps as [|[i j] swaps IH]; intros p Hp Hr.
  { by exists p. }
  inversion Hr as [|? ? [Hi Hj] Hr']; subst. simpl in Hi, Hj.
  destruct (apply_swap_permutation p i j Hi Hj Hp) as (p1 & E & Hs & Hp1).
  destruct (IH p1 Hp1) as (p2 & E2 & Hs2 & Hp2).
  { by rewrite Hs. }
  exists p2. simpl. rewrite E; simpl. split; [done|]. split; [congruence|done].
Qed.

Lemma invert_top_bounds (n p1 p2 : Z) :
  0 ≤ p1 < n → 0 ≤ p2 < n →
  1 ≤ invert_top n p1 p2 ≤ n + 1 ∧ 0 ≤ Z.quot (invert_top n p1 p2) 2 ≤ n.
Proof.
  intros H1 H2. unfold invert_top.
  destruct (Z.ltb_spec p1 p2); rewrite Z.quot_div_nonneg by lia;
    (split; [lia|]); split; try (apply Z.div_pos; lia);
    apply Z.div_le_upper_bound; lia.
Qed.

Lemma invert_apply_swaps (p : permutation_problem double) (p1 p2 : Z) :
  0 ≤ p1 < size p → 0 ≤ p2 < size p →
  apply evaluate_swap (InvertSubsequence p1 p2) (permutation p) =
  p' ← apply_swaps evaluate_swap
         (round_pair (size p) p1 p2 <$>
            seqZ 0 (Z.quot (invert_top (size p) p1 p2) 2)) p;
  Ok (permutation p').
Proof.
  intros H1 H2. simpl. unfold for_upto.
  destruct (invert_top_bounds (size p) p1 p2 H1 H2) as [_ Hq].
  destruct (Z.ltb_spec (Z.quot (invert_top (size p) p1 p2) 2) 0); [lia|].
  rewrite invert_loop_swaps by lia. by rewrite Z2Nat.id by lia.
Qed.

(** *** Reversal of a circular arc *)

Lemma mod_wrap (a n : Z) :
  0 < n → - n ≤ a < 2 * n →
  a `mod` n = if a <? 0 then a + n else if a <? n then a else a - n.
Proof.
  intros Hn Ha.
  destruct (Z.ltb_spec a 0); [|destruct (Z.ltb_spec a n)].
  - symmetry. apply (Z.mod_unique_pos _ _ (-1)); lia.
  - by apply Z.mod_small.
  - symmetry. apply (Z.mod_unique_pos _ _ 1); lia.
Qed.

Lemma rem_wrap (a n : Z) :
  0 < n → 0 ≤ a < 2 * n →
  Z.rem a n = if a <? n then a else a - n.
Proof.
  intros Hn Ha. rewrite Z.rem_mod_nonneg, mod_wrap by lia.
  destruct (Z.ltb_spec a 0); [lia|done].
Qed.

Ltac wrap_cases :=
  repeat match goal with
         | |- context [bool_decide ?P] => destruct (bool_decide_reflect P)
         | |- context [?a <? ?b] => destruct (Z.ltb_spec a b)
         | H : context [?a <? ?b] |- _ => destruct (Z.ltb_spec a b)
         end; try lia.

Lemma arc_rounds (pi0 : list Z) (n p1 p2 len : Z) (count : nat) :
  0 ≤ p1 < n → 0 ≤ p2 < n → 1 ≤ len ≤ n →
  p2 = p1 + len - 1 ∨ p2 = p1 + len - 1 - n →
  ∀ (ii : Z) (sol : permutation_problem double),
    0 ≤ ii → 2 * (ii + Z.of_nat count) ≤ len → size sol = n →
    (∀ x, 0 ≤ x < n →
       pi_m sol !! Z.to_nat x = pi0 !! Z.to_nat (arc_source n p1 p2 len ii x)) →
    ∃ sol', apply_swaps evaluate_swap
              (round_pair n p1 p2 <$> seqZ ii (Z.of_nat count)) sol = Ok sol' ∧
      size sol' = n ∧
      ∀ x, 0 ≤ x < n →
        pi_m sol' !! Z.to_nat x =
        pi0 !! Z.to_nat (arc_source n p1 p2 len (ii + Z.of_nat count) x).
Proof.
  intros H1 H2 Hlen Hp2.
  induction count as [|count IH]; intros ii sol Hii Hc Hs Hinv.
  { exists sol. rewrite Z.add_0_r. done. }
  rewrite seqZ_cons, fmap_cons by lia. cbn [apply_swaps].
  set (from := Z.rem (p1 + ii) n). set (to := Z.rem (n + p2 - ii) n).
  assert (Hfrom : from = if p1 + ii <? n then p1 + ii else p1 + ii - n).
  { unfold from. by rewrite rem_wrap by lia. }
  assert (Hto : to = if n + p2 - ii <? n then n + p2 - ii else p2 - ii).
  { unfold to. rewrite rem_wrap by lia. wrap_cases. }
  assert (Hfr : 0 ≤ from < n) by (rewrite Hfrom; wrap_cases).
  assert (Htr : 0 ≤ to < n) by (rewrite Hto; wrap_cases).
  destruct (apply_swap_cells sol from to) as
    (sol1 & E & _ & _ & Hl & Hi & Hj & Hk); [lia..|].
  rewrite E. cbn [mbind outcome_bind].
  replace (Z.pred (Z.of_nat (S count))) with (Z.of_nat count) by lia.
  destruct (IH (Z.succ ii) sol1) as (sol' & E' & Hs' & Hinv'); [lia|lia| |..].
  { unfold size. rewrite Hl. exact Hs. }
  2:{ exists sol'. split; [exact E'|]. split; [done|].
      intros x Hx. rewrite Hinv' by done.
      by replace (ii + Z.of_nat (S count)) with (Z.succ ii + Z.of_nat count)
        by lia. }
  intros x Hx.
  destruct (decide (x = from)) as [->|Hxf].
  { rewrite Hi, Hinv by lia. do 2 f_equal.
    unfold arc_source. rewrite !mod_wrap by lia.
    rewrite Hfrom, Hto. wrap_cases. }
  destruct (decide (x = to)) as [->|Hxt].
  { rewrite Hj, Hinv by lia. do 2 f_equal.
    unfold arc_source. rewrite !mod_wrap by lia.
    rewrite Hfrom, Hto. wrap_cases. }
  rewrite Hk, Hinv by lia. do 2 f_equal.
  unfold arc_source. rewrite !mod_wrap by lia.
  rewrite Hfrom in Hxf. rewrite Hto in Hxt. wrap_cases.
Qed.

Lemma arc_length_top (n p1 p2 : Z) :
  0 ≤ p1 < n → 0 ≤ p2 < n → p1 ≠ p2 →
  arc_length n p1 p2 = invert_top n p1 p2 ∧
  1 ≤ arc_length n p1 p2 ≤ n ∧
  (p2 = p1 + arc_length n p1 p2 - 1 ∨ p2 = p1 + arc_length n p1 p2 - 1 - n).
Proof.
  intros H1 H2 Hne. unfold arc_length, invert_top.
  rewrite mod_wrap by lia.
  destruct (Z.ltb_spec p1 p2); wrap_cases;
    repeat match goal with
           | |- context [?a =? ?b] => destruct (Z.eqb_spec a b)
           end; lia.
Qed.

Lemma arc_swaps_rounds (n p1 p2 : Z) :
  0 ≤ p1 < n → 0 ≤ p2 < n → p1 ≠ p2 →
  arc_swaps n p1 p2 =
  round_pair n p1 p2 <$> seqZ 0 (Z.quot (invert_top n p1 p2) 2).
Proof.
  intros H1 H2 Hne.
  destruct (arc_length_top n p1 p2 H1 H2 Hne) as (Ht & Hl & _).
  unfold arc_swaps. rewrite <- Ht, Z.quot_div_nonneg by lia.
  apply list_fmap_ext. intros i k Hk.
  apply lookup_seqZ in Hk as [-> Hk].
  assert (Z.of_nat i < n).
  { apply Z.lt_le_trans with (arc_length n p1 p2 `div` 2 + 1); [lia|].
    assert (arc_length n p1 p2 `div` 2 < n); [|lia].
    apply Z.div_lt_upper_bound; lia. }
  f_equal.
  - rewrite Z.rem_mod_nonneg by lia. f_equal; lia.
  - rewrite Z.rem_mod_nonneg by lia.
    replace (n + p2 - (0 + Z.of_nat i)) with (p2 - (0 + Z.of_nat i) + 1 * n)
      by lia.
    by rewrite Z.mod_add by lia.
Qed.

(** C2, amended.  For a permutation problem of size [n >= 2] and two
    different indices [p1], [p2] within the size,
    [invert_subsequence(p1, p2).apply] returns normally; it performs the
    paired swaps of the arc from [p1] to [p2], which are half the length
    of the arc (rounded down) in number, the length being
    [(p2 - p1 + 1) mod n], or [n] when that is 0; the cells of the arc
    are reversed (cell [p1 + k] receives what cell [p2 - k] held, indices
    modulo [n]) and the cells outside of the arc are as before.  For
    [n = 5] and [pi = (0,1,2,3,4)], [invert_subsequence(3, 1).apply]
    leaves [pi = (4,3,2,1,0)]. *)
Theorem invert_apply_reverses (p : permutation_problem double) (p1 p2 : Z) :
  2 ≤ size p → 0 ≤ p1 < size p → 0 ≤ p2 < size p → p1 ≠ p2 →
  ∃ p',
    apply evaluate_swap (invert_subsequence p1 p2) (permutation p)
      = Ok (permutation p') ∧
    apply_swaps evaluate_swap (arc_swaps (size p) p1 p2) p = Ok p' ∧
    length (arc_swaps (size p) p1 p2)
      = Z.to_nat (arc_length (size p) p1 p2 `div` 2) ∧
    length (pi_m p') = length (pi_m p) ∧
    (∀ k, 0 ≤ k < arc_length (size p) p1 p2 →
       pi_m p' !! Z.to_nat ((p1 + k) `mod` size p)
       = pi_m p !! Z.to_nat ((p2 - k) `mod` size p)) ∧
    (∀ x, 0 ≤ x < size p → arc_length (size p) p1 p2 ≤ (x - p1) `mod` size p →
       pi_m p' !! Z.to_nat x = pi_m p !! Z.to_nat x) ∧
    (pi_m p = [0; 1; 2; 3; 4] → p1 = 3 → p2 = 1 →
       pi_m p' = [4; 3; 2; 1; 0]).
Proof.
  intros Hn H1 H2 Hne. set (n := size p) in *.
  destruct (arc_length_top n p1 p2 H1 H2 Hne) as (Ht & Hl & Hp2).
  set (len := arc_length n p1 p2) in *.
  destruct (arc_rounds (pi_m p) n p1 p2 len (Z.to_nat (len `div` 2))
              H1 H2 Hl Hp2 0 p) as (p' & E & Hs & Hinv).
  { lia. }
  { rewrite Z2Nat.id by (apply Z.div_pos; lia).
    pose proof (Z.mul_div_le len 2). lia. }
  { done. }
  { intros x Hx. unfold arc_source.
    rewrite bool_decide_eq_false_2; [done|].
    pose proof (Z.mod_pos_bound (x - p1) n). lia. }
  assert (Hhalf : 0 ≤ len `div` 2) by (apply Z.div_pos; lia).
  rewrite Z2Nat.id in E, Hinv by done.
  assert (Ea : apply_swaps evaluate_swap (arc_swaps n p1 p2) p = Ok p').
  { rewrite arc_swaps_rounds by done. rewrite <- Ht.
    by rewrite Z.quot_div_nonneg by lia. }
  exists p'. split.
  { unfold invert_subsequence. rewrite invert_apply_swaps by done.
    fold n. rewrite <- arc_swaps_rounds by done. by rewrite Ea. }
  split; [done|]. split.
  { unfold arc_swaps. by rewrite length_fmap, length_seqZ. }
  assert (Hlen' : length (pi_m p') = length (pi_m p)).
  { unfold n, size in Hs. lia. }
  split; [done|].
  assert (Hdiv : 2 * (len `div` 2) ≤ len < 2 * (len `div` 2) + 2).
  { pose proof (Z.mul_div_le len 2). pose proof (Z.mul_succ_div_gt len 2). lia. }
  split; [|split].
  - intros k Hk.
    pose proof (Z.mod_pos_bound (p1 + k) n) as Hb.
    rewrite Hinv by lia. do 2 f_equal.
    unfold arc_source. rewrite !mod_wrap by (wrap_cases; rewrite ?mod_wrap by lia; wrap_cases).
    wrap_cases; rewrite ?mod_wrap by lia; wrap_cases.
  - intros x Hx Hout. rewrite Hinv by done. do 2 f_equal.
    unfold arc_source. rewrite bool_decide_eq_false_2; [done|]. lia.
  - intros Hpi -> ->.
    assert (Hn5 : n = 5) by (unfold n, size; by rewrite Hpi).
    revert Ea. rewrite Hn5. destruct p as [v c]. simpl in Hpi. subst v.
    vm_compute. by intros [= <-].
Qed.

(** *** Casts *)

(** C6, amended.  [copy_from] handed a solution that is not a
    [permutation_problem] throws [std::bad_cast] and leaves the target as
    it was, and handed a [permutation_problem] it copies it.  The
    [evaluate] and [apply] of [swap_elements] and of [invert_subsequence]
    convert their argument with [static_cast], without a run-time check:
    on a solution that is not a [permutation_problem] nothing is thrown
    and the behaviour is undefined. *)
Theorem type_mismatch (this : permutation_problem double)
    (other s : feasible_solution double) (m : move) :
  (∀ p, other ≠ permutation p) → (∀ p, s ≠ permutation p) →
  copy_from this other = (Throw bad_cast, this) ∧
  (∀ o, copy_from this (permutation o) = (Ok tt, o)) ∧
  evaluate evaluate_swap m s = Undefined ∧
  apply evaluate_swap m s = Undefined.
Proof.
  intros Hother Hs. repeat split.
  - destruct other as [| |p]; [done..|]. by destruct (Hother p).
  - by intros [v c].
  - destruct s as [| |p]; [by destruct m..|]. by destruct (Hs p).
  - destruct s as [| |p]; [by destruct m..|]. by destruct (Hs p).
Qed.

(** The [evaluate] of [swap_elements] is the cost its [apply] leaves. *)
Lemma swap_evaluate_apply (p p' : permutation_problem double) (p1 p2 : Z) :
  apply_swap' p1 p2 p = Ok p' →
  evaluate evaluate_swap (SwapElements p1 p2) (permutation p)
  = Ok (cost_function p').
Proof.
  unfold apply_swap; simpl.
  destruct (std_swap (pi_m p) p1 p2); simpl; try done. by intros [= <-].
Qed.

(** *** The permutation invariant *)

Lemma new_permutation_problem_ok (n : Z) :
  0 ≤ n →
  ∃ p : permutation_problem double,
    new_permutation_problem n = Ok p ∧ pi_m p = seqZ 0 n ∧
    size p = n ∧ is_permutation p.
Proof.
  intros Hn. unfold new_permutation_problem.
  destruct (Z.ltb_spec n 0); [lia|].
  eexists; split; [done|]. simpl.
  assert (Hs : size {| pi_m := seqZ 0 n; cost_m := fzero (double:=double) |} = n).
  { unfold size; simpl. rewrite length_seqZ. lia. }
  repeat split; try done. unfold is_permutation. by rewrite Hs.
Qed.

Lemma invert_apply_permutation (p : permutation_problem double) (p1 p2 : Z) :
  0 ≤ p1 < size p → 0 ≤ p2 < size p → is_permutation p →
  ∃ p', apply evaluate_swap (invert_subsequence p1 p2) (permutation p)
          = Ok (permutation p') ∧
        size p' = size p ∧ is_permutation p'.
Proof.
  intros H1 H2 Hp. unfold invert_subsequence.
  rewrite invert_apply_swaps by done.
  destruct (invert_top_bounds (size p) p1 p2 H1 H2) as [_ Hq].
  destruct (apply_swaps_permutation
              (round_pair (size p) p1 p2 <$>
                 seqZ 0 (Z.quot (invert_top (size p) p1 p2) 2)) p Hp)
    as (p' & E & Hs & Hp').
  { apply round_pairs_in_range; lia. }
  exists p'. by rewrite E.
Qed.

Section RandomFacts.
Variable random_generator : Type.
Variable int_range : random_generator → Z → Z * random_generator.

(** [int_range(rng, n)] draws from [0, n). *)
Hypothesis int_range_bounds :
  ∀ rng n, 0 < n → 0 ≤ (int_range rng n).1 < n.

Lemma reroll_distinct (n : Z) (fuel : nat) :
  0 < n →
  ∀ p1 p2 rng, 0 ≤ p2 < n →
    match reroll random_generator int_range fuel n p1 p2 rng with
    | Ok (p2', _) => 0 ≤ p2' < n ∧ p1 ≠ p2'
    | OutOfFuel => True
    | _ => False
    end.
Proof.
  intros Hn. induction fuel as [|fuel IH]; intros p1 p2 rng H2; simpl.
  - destruct (Z.eqb_spec p1 p2); done.
  - destruct (Z.eqb_spec p1 p2); [|done].
    pose proof (int_range_bounds rng n Hn) as Hb.
    destruct (int_range rng n) as [p2' rng']. by apply IH.
Qed.

Lemma perturbate_body_permutation (fuel : nat) (ii : Z)
    (p : permutation_problem double) (rng : random_generator) :
  0 < size p → is_permutation p →
  match perturbate_body evaluate_swap random_generator int_range fuel ii
          (p, rng) with
  | Ok (p', _) => size p' = size p ∧ is_permutation p'
  | OutOfFuel => True
  | _ => False
  end.
Proof.
  intros Hn Hp. unfold perturbate_body.
  pose proof (int_range_bounds rng (size p) Hn) as Hb1.
  destruct (int_range rng (size p)) as [p1 rng1].
  pose proof (int_range_bounds rng1 (size p) Hn) as Hb2.
  destruct (int_range rng1 (size p)) as [p2 rng2].
  pose proof (reroll_distinct (size p) fuel Hn p1 p2 rng2 Hb2) as Hr.
  destruct (reroll _ _ _ _ _ _ _) as [[p2' rng3]| | | |]; simpl; try done.
  destruct Hr as [Hb3 _].
  destruct (apply_swap_permutation p p1 p2' Hb1 Hb3 Hp) as (p' & -> & ?).
  done.
Qed.

Lemma perturbate_body_empty (fuel : nat) (ii : Z)
    (p : permutation_problem double) (rng : random_generator) :
  size p = 0 →
  ∀ r, perturbate_body evaluate_swap random_generator int_range fuel ii
         (p, rng) ≠ Ok r.
Proof.
  intros Hs r. unfold perturbate_body.
  destruct (int_range rng (size p)) as [p1 rng1].
  destruct (int_range rng1 (size p)) as [p2 rng2].
  destruct (reroll _ _ _ _ _ _ _) as [[p2' rng3]| | | |]; simpl; try done.
  unfold apply_swap, std_swap, vector_at; simpl. unfold size in Hs.
  destruct (bool_decide_reflect (0 ≤ p1 < Z.of_nat (length (pi_m p))));
    [lia|done].
Qed.

Lemma perturbate_permutation (fuel k : nat) :
  ∀ (ii : Z) (p : permutation_problem double) (rng : random_generator),
    0 < size p → is_permutation p →
    match for_loop k ii
            (perturbate_body evaluate_swap random_generator int_range fuel)
            (p, rng) with
    | Ok (p', _) => size p' = size p ∧ is_permutation p'
    | OutOfFuel => True
    | _ => False
    end.
Proof.
  induction k as [|k IH]; intros ii p rng Hn Hp; [done|].
  cbn [for_loop].
  pose proof (perturbate_body_permutation fuel ii p rng Hn Hp) as Hb.
  destruct (perturbate_body _ _ _ _ _ _) as [[p1 rng1]| | | |];
    simpl; try done.
  destruct Hb as [Hs Hp1].
  specialize (IH (ii + 1) p1 rng1). rewrite Hs in IH.
  specialize (IH Hn Hp1).
  by destruct (for_loop _ _ _ _) as [[p2 rng2]| | | |].
Qed.

(** When the re-roll loop ends within the fuel, so does [perturbate]. *)
Lemma perturbate_returns (fuel k : nat) (n : Z) :
  0 < n →
  (∀ p1 p2 rng, 0 ≤ p1 < n → 0 ≤ p2 < n →
     ∃ r, reroll random_generator int_range fuel n p1 p2 rng = Ok r) →
  ∀ (ii : Z) (p : permutation_problem double) (rng : random_generator),
    size p = n → is_permutation p →
    ∃ p' rng',
      for_loop k ii
        (perturbate_body evaluate_swap random_generator int_range fuel)
        (p, rng) = Ok (p', rng').
Proof.
  intros Hn Hre. induction k as [|k IH]; intros ii p rng Hs Hp.
  { by exists p, rng. }
  cbn [for_loop].
  pose proof (perturbate_body_permutation fuel ii p rng) as Hb.
  rewrite Hs in Hb. specialize (Hb Hn Hp).
  assert (Hok : ∃ r, perturbate_body evaluate_swap random_generator int_range
                       fuel ii (p, rng) = Ok r).
  { unfold perturbate_body. rewrite Hs.
    pose proof (int_range_bounds rng n Hn) as Hb1.
    destruct (int_range rng n) as [p1 rng1].
    pose proof (int_range_bounds rng1 n Hn) as Hb2.
    destruct (int_range rng1 n) as [p2 rng2].
    pose proof (reroll_distinct n fuel Hn p1 p2 rng2 Hb2) as Hr.
    destruct (Hre p1 p2 rng2 Hb1 Hb2) as [[p2' rng3] E].
    rewrite E in Hr |- *. simpl. destruct Hr as [Hb3 _].
    rewrite <- Hs in Hb1, Hb3.
    destruct (apply_swap_permutation p p1 p2' Hb1 Hb3 Hp) as (p' & -> & ?).
    by eexists. }
  destruct Hok as [[p1 rng1] E]. rewrite E in Hb |- *. simpl.
  destruct Hb as [Hs1 Hp1]. by apply IH.
Qed.

(** C5.  Every permutation problem of size [n >= 0] reached from the
    constructed one by [apply_swap] with indices within the size, by
    [invert_subsequence::apply] with indices within the size and by
    [perturbate] (with a generator drawing from [0, n)) has size [n] and
    holds a permutation of 0, ..., n-1.  From such a problem each of these
    operations can be taken again: [apply_swap] and
    [invert_subsequence::apply] return normally, and [perturbate] (for
    [n > 0]) never fails: it returns, and does so for sure when its
    re-roll loop ends within the fuel. *)
Theorem permutation_invariant (n : Z) (p : permutation_problem double) :
  0 ≤ n →
  reachable evaluate_swap random_generator int_range n p →
  size p = n ∧ is_permutation p ∧
  (∀ i j, 0 ≤ i < n → 0 ≤ j < n →
     ∃ p', apply_swap' i j p = Ok p' ∧ size p' = n ∧ is_permutation p') ∧
  (∀ p1 p2, 0 ≤ p1 < n → 0 ≤ p2 < n →
     ∃ p', apply evaluate_swap (invert_subsequence p1 p2) (permutation p)
             = Ok (permutation p') ∧ size p' = n ∧ is_permutation p') ∧
  (∀ fuel k rng, 0 < n →
     match perturbate evaluate_swap random_generator int_range fuel p k rng
     with
     | Ok (p', _) => size p' = n ∧ is_permutation p'
     | OutOfFuel => True
     | _ => False
     end) ∧
  (∀ fuel k rng, 0 < n →
     (∀ p1 p2 r, 0 ≤ p1 < n → 0 ≤ p2 < n →
        ∃ x, reroll random_generator int_range fuel n p1 p2 r = Ok x) →
     ∃ p' rng',
       perturbate evaluate_swap random_generator int_range fuel p k rng
       = Ok (p', rng')).
Proof.
  intros Hn Hreach.
  assert (Hinv : size p = n ∧ is_permutation p).
  { induction Hreach as [p E|p i j p' _ [Hs Hp] Hi Hj E
                        |p p1 p2 p' _ [Hs Hp] H1 H2 E
                        |p fuel k rng p' rng' _ [Hs Hp] E].
    - destruct (new_permutation_problem_ok n Hn) as (p0 & E0 & _ & ? & ?).
      rewrite E0 in E. by injection E as <-.
    - rewrite <- Hs in Hi, Hj.
      destruct (apply_swap_permutation p i j Hi Hj Hp) as (q & Eq & ? & ?).
      rewrite Eq in E. injection E as <-. split; [congruence|done].
    - rewrite <- Hs in H1, H2.
      destruct (invert_apply_permutation p p1 p2 H1 H2 Hp) as (q & Eq & ? & ?).
      rewrite Eq in E. injection E as <-. split; [congruence|done].
    - destruct (decide (0 < n)) as [Hpos|Hzero].
      + pose proof (perturbate_permutation fuel k 0 p rng) as Hk.
        rewrite Hs in Hk. specialize (Hk Hpos Hp).
        unfold perturbate in E. rewrite E in Hk. done.
      + destruct k as [|k].
        * injection E as <- _. done.
        * exfalso. assert (Hs0 : size p = 0) by lia.
          revert E. unfold perturbate. cbn [for_loop].
          pose proof (perturbate_body_empty fuel 0 p rng Hs0) as Hb.
          destruct (perturbate_body _ _ _ _ _ _) as [r| | | |];
            simpl; try done.
          by destruct (Hb r). }
  destruct Hinv as [Hs Hp]. split; [done|]. split; [done|].
  split; [|split; [|split]].
  - intros i j Hi Hj. rewrite <- Hs in Hi, Hj.
    destruct (apply_swap_permutation p i j Hi Hj Hp) as (q & Eq & ? & ?).
    exists q. split; [done|]. split; [congruence|done].
  - intros p1 p2 H1 H2. rewrite <- Hs in H1, H2.
    destruct (invert_apply_permutation p p1 p2 H1 H2 Hp) as (q & Eq & ? & ?).
    exists q. split; [done|]. split; [congruence|done].
  - intros fuel k rng Hpos.
    pose proof (perturbate_permutation fuel k 0 p rng) as Hk.
    rewrite Hs in Hk. by apply Hk.
  - intros fuel k rng Hpos Hre. by apply (perturbate_returns fuel k n).
Qed.

End RandomFacts.

End ModelFacts.





(** ** The termination criteria *)

Section TerminationFacts.
Context {double : Type} {ops : FloatOps double}.

Lemma iteration_run (max : Z) (fss : list (feasible_solution double)) :
  ∀ it : Z, 0 ≤ it →
    ∃ rs,
      chain_run (chain_node (iteration_criteria max it) null_chain) fss
      = Ok (rs, chain_node
                  (iteration_criteria max
                     (Z.max 0 (it - Z.of_nat (length fss)))) null_chain) ∧
      length rs = length fss ∧
      ∀ k : nat, (k < length fss)%nat →
        rs !! k = Some (bool_decide (it ≤ Z.of_nat k)).
Proof.
  induction fss as [|fs fss IH]; intros it Hit.
  { exists []. simpl. split; [do 4 f_equal; lia|]. split; [done|].
    intros k Hk. simpl in Hk. lia. }
  cbn [chain_run chain_call].
  destruct (Z.leb_spec it 0) as [Hle|Hgt].
  - assert (it = 0) as -> by lia.
    destruct (IH 0) as (rs & E & Hl & Hk); [lia|].
    cbn [mbind outcome_bind]. rewrite E. cbn [mbind outcome_bind].
    exists (true :: rs). split; [do 4 f_equal; simpl; lia|].
    split; [simpl; congruence|].
    intros [|k] Hlt; [done|].
    cbn [lookup list_lookup]. simpl in Hlt. rewrite Hk by lia.
    by rewrite !bool_decide_eq_true_2 by lia.
  - destruct (IH (it - 1)) as (rs & E & Hl & Hk); [lia|].
    cbn [mbind outcome_bind]. rewrite E. cbn [mbind outcome_bind].
    exists (false :: rs). split; [do 4 f_equal; simpl length; lia|].
    split; [simpl; congruence|].
    intros [|k] Hlt.
    { cbn [lookup list_lookup]. by rewrite bool_decide_eq_false_2 by lia. }
    cbn [lookup list_lookup]. simpl in Hlt. rewrite Hk by lia.
    f_equal. apply bool_decide_ext. lia.
Qed.

(** C9.  For [max >= 0], an [iteration_termination_criteria(max)] without
    a next criterion, invoked any number of times on any solutions,
    answers false at each of the first [max] invocations and true at the
    invocation after them and at every later one; [reset()] brings the
    node back to the constructed one, whatever its counter was. *)
Theorem iteration_cap_alone (max : Z) (fss : list (feasible_solution double)) :
  0 ≤ max →
  ∃ rs tc,
    chain_run (iteration_termination_criteria max) fss = Ok (rs, tc) ∧
    length rs = length fss ∧
    (∀ k : nat, (k < length fss)%nat →
       rs !! k = Some (bool_decide (max ≤ Z.of_nat k))) ∧
    chain_reset tc = iteration_termination_criteria max ∧
    ∀ it, chain_reset (chain_node (iteration_criteria max it) null_chain)
          = iteration_termination_criteria max.
Proof.
  intros Hmax.
  destruct (iteration_run max fss max Hmax) as (rs & E & Hl & Hk).
  exists rs. eexists. split; [exact E|]. done.
Qed.

(** *** The criterion on iterations without improvement *)

Lemma noimprove_run (max : Z) (next : termination_criteria_chain double) :
  ∀ (fss : list (feasible_solution double)) (costs : list double)
    (d : noimprove_data double) (run : Z),
    Forall2 (λ fs c, dynamic_cast_cost fs = Ok c) fss costs →
    countdown_tracks max d run →
    (next = null_chain ∨ max ≤ 0) →
    ∃ d',
      chain_run (chain_node (noimprove_criteria d) next) fss
      = Ok ((λ r, bool_decide (max ≤ r)) <$>
              quiet_runs (best_cost_m d) (epsilon_m d) run costs,
            chain_node (noimprove_criteria d') next) ∧
      max_noimprove_m d' = max.
Proof.
  intros fss costs d run Hall. revert d run.
  induction Hall as [|fs c fss costs Hc _ IH]; intros d run Hinv Hnext.
  { exists d. split; [done|]. by destruct Hinv. }
  cbn [chain_run chain_call quiet_runs]. rewrite Hc. cbn [mbind outcome_bind].
  destruct Hinv as (Hmax & Hrun & Hleft).
  set (d1 := noimprove_observe c d).
  assert (Hobs : max_noimprove_m d1 = max ∧ epsilon_m d1 = epsilon_m d ∧
            if fltb c (fsub (best_cost_m d) (epsilon_m d))
            then best_cost_m d1 = c ∧ iterations_left_m d1 = max
            else d1 = d).
  { unfold d1, noimprove_observe.
    by destruct (fltb c (fsub (best_cost_m d) (epsilon_m d))). }
  destruct Hobs as (Hm1 & He1 & Hobs).
  assert (Hstep : ∀ d2 run',
            countdown_tracks max d2 run' →
            best_cost_m d2 = best_cost_m d1 → epsilon_m d2 = epsilon_m d →
            ∃ d', chain_run (chain_node (noimprove_criteria d2) next) fss
                  = Ok ((λ r, bool_decide (max ≤ r)) <$>
                          quiet_runs (best_cost_m d1) (epsilon_m d) run' costs,
                        chain_node (noimprove_criteria d') next) ∧
                  max_noimprove_m d' = max).
  { intros d2 run' Hinv2 Hb2 He2.
    destruct (IH d2 run' Hinv2 Hnext) as (d' & E & Hd').
    exists d'. by rewrite <- Hb2, <- He2. }
  destruct (fltb c (fsub (best_cost_m d) (epsilon_m d))) eqn:Himp.
  - (* the cost improves on the tracked best *)
    destruct Hobs as [Hb1 Hl1]. rewrite Hl1. rewrite Hb1 in Hstep.
    destruct (Z.leb_spec max 0) as [Hle|Hgt].
    + assert (Ht : countdown_tracks max d1 0) by (split; [done|lia]).
      destruct (Hstep d1 0 Ht) as (d' & E & Hd'); [done..|].
      cbn [mbind outcome_bind]. rewrite E. cbn [mbind outcome_bind].
      exists d'. split; [|done]. rewrite fmap_cons.
      by rewrite bool_decide_eq_true_2 by lia.
    + destruct Hnext as [->|?]; [|lia].
      cbn [chain_call mbind outcome_bind].
      assert (Ht : countdown_tracks max (noimprove_count d1) 0).
      { split; [done|]. cbn [iterations_left_m noimprove_count]. lia. }
      destruct (Hstep (noimprove_count d1) 0 Ht) as (d' & E & Hd'); [done..|].
      rewrite E. cbn [mbind outcome_bind].
      exists d'. split; [|done]. rewrite fmap_cons.
      by rewrite bool_decide_eq_false_2 by lia.
  - (* it does not *)
    subst d1. rewrite Hobs in *.
    destruct (Z.leb_spec (iterations_left_m d) 0) as [Hle|Hgt].
    + assert (Ht : countdown_tracks max d (run + 1)) by (split; [done|lia]).
      destruct (Hstep d (run + 1) Ht) as (d' & E & Hd'); [done..|].
      cbn [mbind outcome_bind]. rewrite E. cbn [mbind outcome_bind].
      exists d'. split; [|done]. rewrite fmap_cons.
      by rewrite bool_decide_eq_true_2 by lia.
    + destruct Hnext as [->|?]; [|lia].
      cbn [chain_call mbind outcome_bind].
      assert (Ht : countdown_tracks max (noimprove_count d) (run + 1)).
      { split; [done|]. cbn [iterations_left_m noimprove_count]. lia. }
      destruct (Hstep (noimprove_count d) (run + 1) Ht) as (d' & E & Hd');
        [done..|].
      rewrite E. cbn [mbind outcome_bind].
      exists d'. split; [|done]. rewrite fmap_cons.
      by rewrite bool_decide_eq_false_2 by lia.
Qed.

Lemma cast_costs (fss : list (feasible_solution double)) :
  Forall (λ fs, fs ≠ other_solution) fss →
  ∃ costs, Forall2 (λ fs c, dynamic_cast_cost fs = Ok c) fss costs.
Proof.
  induction 1 as [|fs fss Hfs _ [costs IH]]; [by exists []|].
  destruct fs as [|c|p]; [done| |].
  - exists (c :: costs). by constructor.
  - exists (cost_function p :: costs). by constructor.
Qed.

Lemma quiet_runs_nonneg (costs : list double) :
  ∀ best epsilon run, -1 ≤ run →
    Forall (λ r, 0 ≤ r) (quiet_runs best epsilon run costs) ∧
    length (quiet_runs best epsilon run costs) = length costs.
Proof.
  induction costs as [|c costs IH]; intros best epsilon run Hrun; [done|].
  simpl. destruct (fltb c (fsub best epsilon)).
  - destruct (IH c epsilon 0) as [? ?]; [lia|].
    split; [by constructor|]. simpl. congruence.
  - destruct (IH best epsilon (run + 1)) as [? ?]; [lia|].
    split; [constructor; [lia|done]|]. simpl. congruence.
Qed.

Lemma always_reached (runs : list Z) :
  Forall (λ r, 0 ≤ r) runs →
  (λ r, bool_decide (0 ≤ r)) <$> runs = replicate (length runs) true.
Proof.
  induction 1 as [|r rs Hr _ IH]; [done|].
  rewrite fmap_cons, IH. simpl. by rewrite bool_decide_eq_true_2.
Qed.

(** C10.  A [noimprove_termination_criteria] constructed with [max = 0]
    and any next criterion, invoked any number of times on evaluable
    solutions, answers true at every invocation, the first one and those
    whose cost improves on the tracked best included, and leaves the next
    criterion as it was: it is never invoked. *)
Theorem noimprove_zero (epsilon : double)
    (next : termination_criteria_chain double)
    (fss : list (feasible_solution double)) :
  Forall (λ fs, fs ≠ other_solution) fss →
  ∃ d',
    chain_run (noimprove_termination_criteria_next next 0 epsilon) fss
    = Ok (replicate (length fss) true,
          chain_node (noimprove_criteria d') next).
Proof.
  intros Hev. destruct (cast_costs fss Hev) as [costs Hc].
  destruct (noimprove_run 0 next fss costs (new_noimprove 0 epsilon) (-1) Hc)
    as (d' & E & _).
  { split; [done|]. split; [lia|]. left. simpl. lia. }
  { right. lia. }
  exists d'. unfold noimprove_termination_criteria_next. rewrite E.
  do 2 f_equal.
  destruct (quiet_runs_nonneg costs
              (best_cost_m (new_noimprove 0 epsilon))
              (epsilon_m (new_noimprove 0 epsilon)) (-1)) as [Hnn Hlen];
    [lia|].
  rewrite (Forall2_length _ _ _ Hc), <- Hlen.
  by apply always_reached.
Qed.



End TerminationFacts.

(** ** Constructors *)

Section ConstructionFacts.
Context {double : Type} {ops : FloatOps double}.

Lemma for_loop_returns {S : Type} (body : Z → S → outcome S) (count : nat) :
  ∀ (ii : Z) (s : S),
    (∀ k s, ii ≤ k < ii + Z.of_nat count → ∃ s', body k s = Ok s') →
    ∃ s', for_loop count ii body s = Ok s'.
Proof.
  induction count as [|count IH]; intros ii s Hbody; [by exists s|].
  cbn [for_loop]. destruct (Hbody ii s) as [s1 ->]; [lia|].
  cbn [mbind outcome_bind]. apply IH. intros k s2 Hk. apply Hbody. lia.
Qed.

Lemma swap_neighborhood_moves (moves : nat) :
  ∀ (ii : Z) (q : list move),
    for_loop moves ii (λ _ q, Ok (q ++ [swap_elements 0 0])) q
    = Ok (q ++ replicate moves (SwapElements 0 0)).
Proof.
  induction moves as [|moves IH]; intros ii q.
  { simpl. by rewrite app_nil_r. }
  cbn [for_loop mbind outcome_bind]. rewrite IH.
  by rewrite <- app_assoc.
Qed.

(** C7, amended.  [exponential_cooling(alpha)] throws [std::runtime_error]
    exactly when [alpha >= 1] holds and is constructed otherwise, so also
    for [alpha <= 0]; [linear_cooling(delta)] throws exactly when
    [delta <= 0] holds.  The constructors of the neighborhoods check
    nothing and throw nothing: [swap_full_neighborhood(size)] returns for
    every [size >= 1] and [invert_full_neighborhood(size)] for every
    [size >= 0], both with no move at all for [size = 1], and
    [swap_neighborhood(r, moves)] returns with [moves] moves for every
    [moves]. *)
Theorem construction_checks :
  (∀ alpha : double,
     (fleb fone alpha = true →
      exponential_cooling alpha = Throw (runtime_error "alpha must be < 1")) ∧
     (fleb fone alpha = false →
      exponential_cooling alpha = Ok (ExponentialCooling alpha))) ∧
  (∀ delta : double,
     (fleb delta fzero = true →
      linear_cooling delta = Throw (runtime_error "delta must be > 0")) ∧
     (fleb delta fzero = false →
      linear_cooling delta = Ok (LinearCooling delta))) ∧
  (∀ size, 1 ≤ size → ∃ moves_m, swap_full_neighborhood size = Ok moves_m) ∧
  swap_full_neighborhood 1 = Ok [] ∧
  (∀ size, 0 ≤ size → ∃ moves_m, invert_full_neighborhood size = Ok moves_m) ∧
  invert_full_neighborhood 1 = Ok [] ∧
  invert_full_neighborhood 0 = Ok [] ∧
  (∀ moves : nat,
     swap_neighborhood moves = Ok (replicate moves (SwapElements 0 0))).
Proof.
  split; [|split; [|split; [|split; [|split; [|split; [|split]]]]]];
    try done.
  - intros alpha. unfold exponential_cooling.
    split; intros ->; done.
  - intros delta. unfold linear_cooling.
    split; intros ->; done.
  - intros size Hsize. unfold swap_full_neighborhood, for_upto.
    destruct (Z.ltb_spec (size - 1) 0); [lia|].
    apply for_loop_returns. intros ii q Hii. unfold swap_full_row.
    destruct (Z.ltb_spec size (ii + 1)); [lia|].
    apply for_loop_returns. intros jj q' _. by eexists.
  - intros size Hsize. unfold invert_full_neighborhood, for_upto.
    destruct (Z.ltb_spec size 0); [lia|].
    apply for_loop_returns. intros ii q Hii. unfold invert_full_row, for_upto.
    destruct (Z.ltb_spec size 0); [lia|].
    apply for_loop_returns. intros jj q' _. by eexists.
  - intros moves. unfold swap_neighborhood.
    by rewrite swap_neighborhood_moves.
Qed.

End ConstructionFacts.

(** ** The evaluation of an inversion *)

Import Rational.

(** C1.  On the permutation problem with the cost of the first scenario
    (the sum over [i] of [pi[i] * i]) at [pi = (0,1,2)], whose cost 5 is
    the computed one and whose [evaluate_swap(0, 1)] is the difference of
    the computed costs, [invert_subsequence(0, 1).evaluate] returns -1,
    the delta alone, while [apply] leaves the cost 4; the [evaluate] of
    [swap_elements(0, 1)], the same exchange, returns 4. *)
Theorem invert_evaluate_misses_cost :
  let s := Assignment.start [0; 1; 2] in
  let s' := {| pi_m := [1; 0; 2]; cost_m := 4%Q |} in
  cost_function s = Assignment.compute_cost s ∧
  Assignment.evaluate_swap s 0 1
  = fsub (Assignment.compute_cost s') (Assignment.compute_cost s) ∧
  apply Assignment.evaluate_swap (invert_subsequence 0 1) (permutation s)
  = Ok (permutation s') ∧
  cost_function s' = Assignment.compute_cost s' ∧
  evaluate Assignment.evaluate_swap (invert_subsequence 0 1) (permutation s)
  = Ok (-1)%Q ∧
  evaluate Assignment.evaluate_swap (swap_elements 0 1) (permutation s)
  = Ok 4%Q.
Proof. vm_compute. done. Qed.

(** ** The search by simulated annealing *)

Section AnnealingFacts.
Context {double : Type} {ops : FloatOps double}.
Context {move_t move_manager_t solution_recorder cooling_schedule_t
         generator : Type}.
Variable move_evaluate : move_t → feasible_solution double → outcome double.
Variable move_apply
  : move_t → feasible_solution double → outcome (feasible_solution double).
Variable refresh
  : move_manager_t → feasible_solution double → outcome move_manager_t.
Variable begin_end : move_manager_t → list move_t.
Variable accept : solution_recorder → feasible_solution double
                  → outcome (bool * solution_recorder).
Variable schedule : cooling_schedule_t → double → feasible_solution double
                    → outcome (double * cooling_schedule_t).
Variable gen : generator → double * generator.

Local Abbreviation search_t :=
  (simulated_annealing double move_t move_manager_t solution_recorder
     cooling_schedule_t generator).
Local Abbreviation scan := (scan_moves move_evaluate move_apply accept gen).
Local Abbreviation round :=
  (search_round move_evaluate move_apply refresh begin_end accept schedule gen).
Local Abbreviation loop :=
  (search_loop move_evaluate move_apply refresh begin_end accept schedule gen).

(** The bound of the acceptance test at the temperature of [sa]. *)
Local Abbreviation bound delta sa :=
  (fexp (fdiv (fneg delta) (fmul (K_m sa) (current_temp_m sa)))).

(** Two search objects with the same members are the same. *)
Lemma search_ext (a b : search_t) :
  working_solution_m a = working_solution_m b →
  solution_recorder_m a = solution_recorder_m b →
  moves_m a = moves_m b →
  current_move_m a = current_move_m b →
  step_m a = step_m b →
  termination_criteria_m a = termination_criteria_m b →
  cooling_schedule_m a = cooling_schedule_m b →
  starting_temp_m a = starting_temp_m b →
  stop_temp_m a = stop_temp_m b →
  current_temp_m a = current_temp_m b →
  K_m a = K_m b →
  gen_m a = gen_m b →
  calls_m a = calls_m b →
  a = b.
Proof. destruct a, b; simpl; intros; by subst. Qed.

Ltac search_members :=
  apply search_ext; cbn; try done; by rewrite <- ?app_assoc.

Lemma metropolis_accepts_iff (delta : double) (sa : search_t) :
  (metropolis gen delta sa).1 = true ↔
  fltb delta fzero = true ∨ fltb (gen (gen_m sa)).1 (bound delta sa) = true.
Proof.
  unfold metropolis. destruct (fltb delta fzero) eqn:Hd.
  - simpl. by split; [left|].
  - destruct (gen (gen_m sa)) as [u g] eqn:Hg. destruct sa; simpl in *.
    split; [by right|]. by intros [?|?].
Qed.

Lemma metropolis_state (delta : double) (sa : search_t) :
  (metropolis gen delta sa).2 =
  if fltb delta fzero then sa
  else log call_gen (set_gen (gen (gen_m sa)).2 sa).
Proof.
  unfold metropolis. destruct (fltb delta fzero); [done|].
  by destruct (gen (gen_m sa)) as [u g].
Qed.

Lemma scan_rejected_prefix (actual_cost : double) (pre post : list move_t) :
  ∀ (sa : search_t) (g' : generator),
    rejected_run move_evaluate gen (K_m sa) (current_temp_m sa) actual_cost
      (working_solution_m sa) pre (gen_m sa) = Some g' →
    ∃ cs, scan actual_cost (pre ++ post) sa
          = scan actual_cost post
              (set_calls (calls_m sa ++ cs) (set_gen g' sa)) ∧
      evaluated cs = pre ∧ applied cs = [] ∧ notified cs = [].
Proof.
  induction pre as [|m pre IH]; intros sa g' Hrej.
  { injection Hrej as <-. exists []. split; [|done].
    destruct sa; simpl. by rewrite app_nil_r. }
  cbn [rejected_run] in Hrej. cbn [scan_moves app].
  destruct (move_evaluate m (working_solution_m sa)) as [cost| | | |];
    try done.
  cbn [mbind outcome_bind].
  pose proof (metropolis_accepts_iff (fsub cost actual_cost)
                (log (call_evaluate m) sa)) as Hacc.
  pose proof (metropolis_state (fsub cost actual_cost)
                (log (call_evaluate m) sa)) as Hst.
  destruct (metropolis gen (fsub cost actual_cost) (log (call_evaluate m) sa))
    as [accepted sa1].
  simpl in Hacc, Hst.
  destruct (fltb (fsub cost actual_cost) fzero); [done|].
  destruct sa as [ws rec mm cm st tc cs0 t0 ts T K g calls].
  simpl in *.
  destruct (gen g) as [u g1]. simpl in *.
  destruct (fltb u _); [done|].
  destruct accepted.
  { destruct Hacc as [Hacc _]. by destruct (Hacc eq_refl). }
  subst sa1.
  match goal with
  | |- context [scan_moves _ _ _ _ _ _ ?x] =>
      destruct (IH x g' Hrej) as (cs & E & He & Ha & Hn)
  end.
  exists (call_evaluate m :: call_gen :: cs).
  rewrite E. simpl. rewrite <- !app_assoc. simpl.
  split; [done|]. by rewrite He, Ha, Hn.
Qed.

(** A scan in which no move is accepted. *)
Lemma scan_rejected (actual_cost : double) (movs : list move_t)
    (sa : search_t) (g' : generator) :
  rejected_run move_evaluate gen (K_m sa) (current_temp_m sa) actual_cost
    (working_solution_m sa) movs (gen_m sa) = Some g' →
  ∃ cs, scan actual_cost movs sa
        = Ok (set_calls (calls_m sa ++ cs) (set_gen g' sa)) ∧
    evaluated cs = movs ∧ applied cs = [] ∧ notified cs = [].
Proof.
  intros Hrej.
  destruct (scan_rejected_prefix actual_cost movs [] sa g' Hrej)
    as (cs & E & ?).
  exists cs. by rewrite app_nil_r in E.
Qed.

(** A scan in which [m] is the first move accepted. *)
Lemma scan_accepted (actual_cost : double) (pre post : list move_t)
    (m : move_t) (sa : search_t) (g1 : generator) (cost : double)
    (ws' : feasible_solution double) (improved : bool)
    (rec' : solution_recorder) :
  rejected_run move_evaluate gen (K_m sa) (current_temp_m sa) actual_cost
    (working_solution_m sa) pre (gen_m sa) = Some g1 →
  move_evaluate m (working_solution_m sa) = Ok cost →
  fltb (fsub cost actual_cost) fzero = true ∨
  fltb (gen g1).1 (bound (fsub cost actual_cost) sa) = true →
  move_apply m (working_solution_m sa) = Ok ws' →
  accept (solution_recorder_m sa) ws' = Ok (improved, rec') →
  ∃ cs,
    scan actual_cost (pre ++ m :: post) sa
    = Ok (set_calls (calls_m sa ++ cs)
            (set_step (Some MOVE_MADE)
               (set_solution_recorder rec'
                  (set_current_move (Some m)
                     (set_working_solution ws'
                        (set_gen
                           (if fltb (fsub cost actual_cost) fzero
                            then g1 else (gen g1).2) sa)))))) ∧
    evaluated cs = pre ++ [m] ∧ applied cs = [m] ∧
    notified cs
    = (if improved then [IMPROVEMENT_MADE] else []) ++ [MOVE_MADE].
Proof.
  intros Hrej Hev Hacc Happ Hrec.
  destruct (scan_rejected_prefix actual_cost pre (m :: post) sa g1 Hrej)
    as (cs & E & He & Ha & Hn).
  rewrite E. clear E Hrej. cbn [scan_moves].
  set (sa1 := set_calls (calls_m sa ++ cs) (set_gen g1 sa)).
  change (working_solution_m sa1) with (working_solution_m sa).
  rewrite Hev. cbn [mbind outcome_bind].
  assert (Hyes : (metropolis gen (fsub cost actual_cost)
                    (log (call_evaluate m) sa1)).1 = true).
  { apply metropolis_accepts_iff. exact Hacc. }
  pose proof (metropolis_state (fsub cost actual_cost)
                (log (call_evaluate m) sa1)) as Hst.
  destruct (metropolis gen (fsub cost actual_cost)
              (log (call_evaluate m) sa1)) as [accepted sa2].
  cbn [fst snd] in Hyes, Hst. subst accepted sa2.
  unfold accept_move.
  set (delta_neg := fltb (fsub cost actual_cost) fzero).
  set (sa2 := if delta_neg then log (call_evaluate m) sa1
              else log call_gen
                     (set_gen (gen (gen_m (log (call_evaluate m) sa1))).2
                        (log (call_evaluate m) sa1))).
  assert (Hws : working_solution_m sa2 = working_solution_m sa).
  { unfold sa2. by destruct delta_neg. }
  assert (Hrc : solution_recorder_m sa2 = solution_recorder_m sa).
  { unfold sa2. by destruct delta_neg. }
  rewrite Hws, Happ. cbn [mbind outcome_bind].
  change (solution_recorder_m
            (set_current_move (Some m)
               (log (call_apply m) (set_working_solution ws' sa2))))
    with (solution_recorder_m sa2).
  change (working_solution_m
            (set_current_move (Some m)
               (log (call_apply m) (set_working_solution ws' sa2))))
    with ws'.
  rewrite Hrc, Hrec. cbn [mbind outcome_bind].
  exists (cs ++
          (if delta_neg then [call_evaluate m]
           else [call_evaluate m; call_gen]) ++
          [call_apply m; call_accept] ++
          (if improved then [call_notify IMPROVEMENT_MADE] else []) ++
          [call_notify MOVE_MADE]).
  split.
  - f_equal. unfold sa2, sa1.
    destruct delta_neg, improved; search_members.
  - unfold evaluated, applied, notified in *.
    rewrite !omap_app, He, Ha, Hn.
    by destruct delta_neg, improved.
Qed.

(** A round in which [m] is the first move accepted, by the object it
    returns. *)
Lemma round_accepted (sa : search_t) (base : double) (mm : move_manager_t)
    (pre post : list move_t) (m : move_t) (g1 : generator) (cost : double)
    (ws' : feasible_solution double) (improved : bool)
    (rec' : solution_recorder) (temp' : double) (cs' : cooling_schedule_t) :
  static_cast_cost (working_solution_m sa) = Ok base →
  refresh (moves_m sa) (working_solution_m sa) = Ok mm →
  begin_end mm = pre ++ m :: post →
  rejected_run move_evaluate gen (K_m sa) (current_temp_m sa) base
    (working_solution_m sa) pre (gen_m sa) = Some g1 →
  move_evaluate m (working_solution_m sa) = Ok cost →
  fltb (fsub cost base) fzero = true ∨
  fltb (gen g1).1 (bound (fsub cost base) sa) = true →
  move_apply m (working_solution_m sa) = Ok ws' →
  accept (solution_recorder_m sa) ws' = Ok (improved, rec') →
  schedule (cooling_schedule_m sa) (current_temp_m sa) ws'
  = Ok (temp', cs') →
  ∃ cs,
    round sa
    = Ok (set_calls (calls_m sa ++ call_refresh :: cs ++ [call_schedule])
            (set_current_temp temp'
               (set_cooling_schedule cs'
                  (set_step (Some MOVE_MADE)
                     (set_solution_recorder rec'
                        (set_current_move (Some m)
                           (set_working_solution ws'
                              (set_gen
                                 (if fltb (fsub cost base) fzero
                                  then g1 else (gen g1).2)
                                 (set_moves mm sa))))))))) ∧
    evaluated cs = pre ++ [m] ∧ applied cs = [m] ∧
    notified cs
    = (if improved then [IMPROVEMENT_MADE] else []) ++ [MOVE_MADE].
Proof.
  intros Hbase Hrefresh Hmoves Hrej Hev Hacc Happ Hrec Hsched.
  unfold search_round. rewrite Hbase, Hrefresh. cbn [mbind outcome_bind].
  destruct (scan_accepted base pre post m
              (log call_refresh (set_moves mm sa)) g1 cost ws'
              improved rec') as (cs & E & He & Ha & Hn);
    try (by destruct sa).
  replace (begin_end (moves_m (log call_refresh (set_moves mm sa))))
    with (pre ++ m :: post) by (by destruct sa).
  rewrite E. cbn [mbind outcome_bind]. clear E.
  exists cs. split; [|done].
  match goal with
  | |- context [schedule ?c ?t ?w] =>
      change (schedule c t w) with
        (schedule (cooling_schedule_m sa) (current_temp_m sa) ws')
  end.
  rewrite Hsched. cbn [mbind outcome_bind]. f_equal. search_members.
Qed.

(** A round in which every move is rejected, by the object it returns. *)
Lemma round_rejected (sa : search_t) (base : double) (mm : move_manager_t)
    (g1 : generator) (temp' : double) (cs' : cooling_schedule_t) :
  static_cast_cost (working_solution_m sa) = Ok base →
  refresh (moves_m sa) (working_solution_m sa) = Ok mm →
  rejected_run move_evaluate gen (K_m sa) (current_temp_m sa) base
    (working_solution_m sa) (begin_end mm) (gen_m sa) = Some g1 →
  schedule (cooling_schedule_m sa) (current_temp_m sa)
    (working_solution_m sa) = Ok (temp', cs') →
  ∃ cs,
    round sa
    = Ok (set_calls (calls_m sa ++ call_refresh :: cs ++ [call_schedule])
            (set_current_temp temp'
               (set_cooling_schedule cs'
                  (set_gen g1 (set_moves mm sa))))) ∧
    evaluated cs = begin_end mm ∧ applied cs = [] ∧ notified cs = [].
Proof.
  intros Hbase Hrefresh Hrej Hsched.
  unfold search_round. rewrite Hbase, Hrefresh. cbn [mbind outcome_bind].
  destruct (scan_rejected base (begin_end mm)
              (log call_refresh (set_moves mm sa)) g1)
    as (cs & E & He & Ha & Hn); [by destruct sa|].
  replace (begin_end (moves_m (log call_refresh (set_moves mm sa))))
    with (begin_end mm) by (by destruct sa).
  rewrite E. cbn [mbind outcome_bind]. clear E.
  exists cs. split; [|done].
  match goal with
  | |- context [schedule ?c ?t ?w] =>
      change (schedule c t w) with
        (schedule (cooling_schedule_m sa) (current_temp_m sa)
           (working_solution_m sa))
  end.
  rewrite Hsched. cbn [mbind outcome_bind]. f_equal. search_members.
Qed.

(** An evaluation of the condition of the [while], by the object it
    leaves. *)
Lemma loop_condition (sa : search_t) (stop : bool)
    (tc : termination_criteria_chain double) (fuel : nat) :
  chain_call (termination_criteria_m sa) (working_solution_m sa)
  = Ok (stop, tc) →
  ∃ sa0 : search_t,
    condition_frame sa sa0 ∧
    current_temp_m sa0 = current_temp_m sa ∧
    termination_criteria_m sa0 = tc ∧
    calls_m sa0 = calls_m sa ++ [call_termination] ∧
    (stop = true ∨ fltb (stop_temp_m sa) (current_temp_m sa) = false →
     loop (S fuel) sa = Ok sa0) ∧
    (stop = false → fltb (stop_temp_m sa) (current_temp_m sa) = true →
     loop (S fuel) sa = sa1 ← round sa0; loop fuel sa1).
Proof.
  intros Hcall.
  exists (log call_termination (set_termination_criteria tc sa)).
  split; [by destruct sa|]. split; [by destruct sa|].
  split; [by destruct sa|]. split; [by destruct sa|].
  cbn [search_loop]. unfold search_condition. rewrite Hcall.
  cbn [mbind outcome_bind].
  set (sa0 := log call_termination (set_termination_criteria tc sa)).
  assert (Hts : stop_temp_m sa0 = stop_temp_m sa) by (by destruct sa).
  assert (Htc : current_temp_m sa0 = current_temp_m sa) by (by destruct sa).
  rewrite Hts, Htc. split.
  - intros [->| ->]; [done|]. by rewrite andb_false_r.
  - by intros -> ->.
Qed.

(** C3.  In [search]:
    - [search] sets the current temperature to the starting temperature
      and evaluates the condition of the [while]: the termination chain
      is invoked on the working solution, and the [while] ends, and
      [search] with it, exactly when the chain answers true or the
      current temperature is not above the stop temperature; otherwise
      a round is run and the condition is evaluated again, in the same
      way, at the current temperature the round left;
    - a move with evaluated cost [c] passes the acceptance test exactly
      when [delta = c - base] is negative or the draw of the uniform
      generator is below [exp(-delta / (K * current_temp))];
    - in a round, [base] is the cost of the working solution read before
      [refresh]; the moves of the refreshed neighborhood are evaluated in
      its iteration order, each against the working solution as the
      round found it; the first move that passes the test is applied and
      offered to the recorder, [MOVE_MADE] is notified (after
      [IMPROVEMENT_MADE] when the recorder improved), and no later move
      is evaluated; then the cooling schedule is called with the current
      temperature and the working solution, and its answer is the
      current temperature the round returns with;
    - a round in which every move is rejected evaluates all of them,
      applies none, leaves the working solution, the recorder, the
      current move and the step as they were, and ends with the same
      call of the cooling schedule.
    The members of the object a round or [search] returns are given one
    by one; [calls_m] gives the calls made, in order. *)
Theorem search_spec :
  (∀ (sa : search_t) (stop : bool) (tc : termination_criteria_chain double)
     (fuel : nat),
     chain_call (termination_criteria_m sa) (working_solution_m sa)
     = Ok (stop, tc) →
     ∃ sa0 : search_t,
       condition_frame sa sa0 ∧
       current_temp_m sa0 = starting_temp_m sa ∧
       termination_criteria_m sa0 = tc ∧
       calls_m sa0 = calls_m sa ++ [call_termination] ∧
       (stop = true ∨ fltb (stop_temp_m sa) (starting_temp_m sa) = false →
        search move_evaluate move_apply refresh begin_end accept schedule
          gen (S fuel) sa = Ok sa0) ∧
       (stop = false → fltb (stop_temp_m sa) (starting_temp_m sa) = true →
        search move_evaluate move_apply refresh begin_end accept schedule
          gen (S fuel) sa = sa1 ← round sa0; loop fuel sa1)) ∧
  (∀ (sa : search_t) (stop : bool) (tc : termination_criteria_chain double)
     (fuel : nat),
     chain_call (termination_criteria_m sa) (working_solution_m sa)
     = Ok (stop, tc) →
     ∃ sa0 : search_t,
       condition_frame sa sa0 ∧
       current_temp_m sa0 = current_temp_m sa ∧
       termination_criteria_m sa0 = tc ∧
       calls_m sa0 = calls_m sa ++ [call_termination] ∧
       (stop = true ∨ fltb (stop_temp_m sa) (current_temp_m sa) = false →
        loop (S fuel) sa = Ok sa0) ∧
       (stop = false → fltb (stop_temp_m sa) (current_temp_m sa) = true →
        loop (S fuel) sa = sa1 ← round sa0; loop fuel sa1)) ∧
  (∀ (delta : double) (sa : search_t),
     (metropolis gen delta sa).1 = true ↔
     fltb delta fzero = true ∨
     fltb (gen (gen_m sa)).1 (bound delta sa) = true) ∧
  (∀ (sa : search_t) (base : double) (mm : move_manager_t)
     (pre post : list move_t) (m : move_t) (g1 : generator) (cost : double)
     (ws' : feasible_solution double) (improved : bool)
     (rec' : solution_recorder) (temp' : double) (cs' : cooling_schedule_t),
     static_cast_cost (working_solution_m sa) = Ok base →
     refresh (moves_m sa) (working_solution_m sa) = Ok mm →
     begin_end mm = pre ++ m :: post →
     rejected_run move_evaluate gen (K_m sa) (current_temp_m sa) base
       (working_solution_m sa) pre (gen_m sa) = Some g1 →
     move_evaluate m (working_solution_m sa) = Ok cost →
     fltb (fsub cost base) fzero = true ∨
     fltb (gen g1).1 (bound (fsub cost base) sa) = true →
     move_apply m (working_solution_m sa) = Ok ws' →
     accept (solution_recorder_m sa) ws' = Ok (improved, rec') →
     schedule (cooling_schedule_m sa) (current_temp_m sa) ws'
     = Ok (temp', cs') →
     ∃ (sa' : search_t) (cs : list (call move_t)),
       round sa = Ok sa' ∧
       calls_m sa' = calls_m sa ++ call_refresh :: cs ++ [call_schedule] ∧
       evaluated cs = pre ++ [m] ∧ applied cs = [m] ∧
       notified cs
       = (if improved then [IMPROVEMENT_MADE] else []) ++ [MOVE_MADE] ∧
       current_temp_m sa' = temp' ∧
       cooling_schedule_m sa' = cs' ∧
       working_solution_m sa' = ws' ∧
       solution_recorder_m sa' = rec' ∧
       current_move_m sa' = Some m ∧
       step_m sa' = Some MOVE_MADE ∧
       moves_m sa' = mm ∧
       gen_m sa' = (if fltb (fsub cost base) fzero then g1 else (gen g1).2) ∧
       round_frame sa sa') ∧
  (∀ (sa : search_t) (base : double) (mm : move_manager_t) (g1 : generator)
     (temp' : double) (cs' : cooling_schedule_t),
     static_cast_cost (working_solution_m sa) = Ok base →
     refresh (moves_m sa) (working_solution_m sa) = Ok mm →
     rejected_run move_evaluate gen (K_m sa) (current_temp_m sa) base
       (working_solution_m sa) (begin_end mm) (gen_m sa) = Some g1 →
     schedule (cooling_schedule_m sa) (current_temp_m sa)
       (working_solution_m sa) = Ok (temp', cs') →
     ∃ (sa' : search_t) (cs : list (call move_t)),
       round sa = Ok sa' ∧
       calls_m sa' = calls_m sa ++ call_refresh :: cs ++ [call_schedule] ∧
       evaluated cs = begin_end mm ∧ applied cs = [] ∧ notified cs = [] ∧
       current_temp_m sa' = temp' ∧
       cooling_schedule_m sa' = cs' ∧
       working_solution_m sa' = working_solution_m sa ∧
       solution_recorder_m sa' = solution_recorder_m sa ∧
       current_move_m sa' = current_move_m sa ∧
       step_m sa' = step_m sa ∧
       moves_m sa' = mm ∧
       gen_m sa' = g1 ∧
       round_frame sa sa').
Proof.
  split; [|split; [|split; [|split]]].
  - intros sa stop tc fuel Hcall. unfold search.
    set (sas := set_current_temp (starting_temp_m sa) sa).
    destruct (loop_condition sas stop tc fuel)
      as (sa0 & Hfr & Ht & Htc & Hcs & Hend & Hgo); [exact Hcall|].
    exists sa0. split.
    { unfold condition_frame in *. by destruct sa. }
    split; [exact Ht|]. split; [exact Htc|]. split; [exact Hcs|].
    split; [exact Hend|exact Hgo].
  - apply loop_condition.
  - apply metropolis_accepts_iff.
  - intros sa base mm pre post m g1 cost ws' improved rec' temp' cs'
      Hbase Hrefresh Hmoves Hrej Hev Hacc Happ Hrec Hsched.
    destruct (round_accepted sa base mm pre post m g1 cost ws' improved
                rec' temp' cs' Hbase Hrefresh Hmoves Hrej Hev Hacc Happ
                Hrec Hsched) as (cs & E & He & Ha & Hn).
    eexists _, cs. split; [exact E|].
    split; [done|]. split; [done|]. split; [done|]. split; [done|].
    unfold round_frame. by destruct sa.
  - intros sa base mm g1 temp' cs' Hbase Hrefresh Hrej Hsched.
    destruct (round_rejected sa base mm g1 temp' cs' Hbase Hrefresh Hrej
                Hsched) as (cs & E & He & Ha & Hn).
    eexists _, cs. split; [exact E|].
    split; [done|]. split; [done|]. split; [done|]. split; [done|].
    unfold round_frame. by destruct sa.
Qed.

End AnnealingFacts.

(** * The properties at concrete inputs *)

(** [apply_swap(1, 3)] on the assignment problem at [pi = (0,1,2,3)]. *)
Lemma apply_swap_spec_witness :
  let p := Assignment.start [0; 1; 2; 3] in
  ∃ p', apply_swap Assignment.evaluate_swap 1 3 p = Ok p' ∧
    cost_m p' = fadd (cost_m p) (Assignment.evaluate_swap p 1 3) ∧
    cost_function p' = cost_m p' ∧
    length (pi_m p') = length (pi_m p) ∧
    pi_m p' !! Z.to_nat 1 = pi_m p !! Z.to_nat 3 ∧
    pi_m p' !! Z.to_nat 3 = pi_m p !! Z.to_nat 1 ∧
    ∀ k : nat, k ≠ Z.to_nat 1 → k ≠ Z.to_nat 3 → pi_m p' !! k = pi_m p !! k.
Proof.
  apply (apply_swap_spec Assignment.evaluate_swap
           (Assignment.start [0; 1; 2; 3]) 1 3);
    unfold size; simpl; lia.
Defined.

(** [invert_subsequence(3, 1)] on the assignment problem at
    [pi = (0,1,2,3,4)]. *)
Lemma invert_apply_reverses_witness :
  let p := Assignment.start [0; 1; 2; 3; 4] in
  ∃ p',
    apply Assignment.evaluate_swap (invert_subsequence 3 1) (permutation p)
      = Ok (permutation p') ∧
    apply_swaps Assignment.evaluate_swap (arc_swaps (size p) 3 1) p = Ok p' ∧
    pi_m p' = [4; 3; 2; 1; 0].
Proof.
  destruct (invert_apply_reverses Assignment.evaluate_swap
              (Assignment.start [0; 1; 2; 3; 4]) 3 1)
    as (p' & E1 & E2 & _ & _ & _ & _ & Hpi);
    [unfold size; simpl; lia..|].
  exists p'. split; [exact E1|]. split; [exact E2|]. by apply Hpi.
Defined.

(** [invert_subsequence(3, 1)] on [pi = (0,1,2,3,4)] leaves
    [(4,3,2,1,0)], not [(3,1,0,4,2)]; and [invert_subsequence(0, 0)] on
    [pi = (0,1,2,3)] exchanges the cells 1 and 3, while the arc from 0 to
    0 has length 1 and no paired swap. *)
Lemma invert_apply_counterexample :
  apply Assignment.evaluate_swap (invert_subsequence 3 1)
    (permutation (Assignment.start [0; 1; 2; 3; 4]))
  = Ok (permutation {| pi_m := [4; 3; 2; 1; 0]; cost_m := 10%Q |}) ∧
  ¬ (∃ cost,
       apply Assignment.evaluate_swap (invert_subsequence 3 1)
         (permutation (Assignment.start [0; 1; 2; 3; 4]))
       = Ok (permutation {| pi_m := [3; 1; 0; 4; 2]; cost_m := cost |})) ∧
  apply Assignment.evaluate_swap (invert_subsequence 0 0)
    (permutation (Assignment.start [0; 1; 2; 3]))
  = Ok (permutation {| pi_m := [0; 3; 2; 1]; cost_m := 10%Q |}) ∧
  arc_length 4 0 0 = 1 ∧ arc_swaps 4 0 0 = [] ∧
  apply_swaps Assignment.evaluate_swap (arc_swaps 4 0 0)
    (Assignment.start [0; 1; 2; 3])
  = Ok (Assignment.start [0; 1; 2; 3]).
Proof.
  split; [by vm_compute|]. split; [|by vm_compute].
  intros [cost E]. vm_compute in E. discriminate E.
Qed.

Lemma counter_bounds (count n : Z) :
  0 < n → 0 ≤ (Counter.int_range count n).1 < n.
Proof. intros Hn. simpl. apply Z.mod_pos_bound. exact Hn. Defined.

(** The problem of size 5 after [invert_subsequence(3, 1)] on the
    constructed one. *)
Lemma permutation_invariant_witness :
  let p := {| pi_m := [4; 3; 2; 1; 0]; cost_m := (-20)%Q |} in
  reachable Assignment.evaluate_swap Z Counter.int_range 5 p ∧
  size p = 5 ∧ is_permutation p.
Proof.
  assert (Hr : reachable Assignment.evaluate_swap Z Counter.int_range 5
                 {| pi_m := [4; 3; 2; 1; 0]; cost_m := (-20)%Q |}).
  { apply (reach_invert _ _ _ 5 {| pi_m := seqZ 0 5; cost_m := 0%Q |} 3 1);
      [apply reach_new; reflexivity | lia | lia | reflexivity]. }
  split; [exact Hr|].
  destruct (permutation_invariant Assignment.evaluate_swap Z
              Counter.int_range counter_bounds 5 _ ltac:(lia) Hr)
    as (Hs & Hp & _).
  split; [exact Hs|exact Hp].
Defined.

(** [copy_from] and the moves on an evaluable solution of another
    class. *)
Lemma type_mismatch_witness :
  let this := Assignment.start [0; 1; 2] in
  copy_from this (evaluable 3%Q) = (Throw bad_cast, this) ∧
  (∀ o, copy_from this (permutation o) = (Ok tt, o)) ∧
  evaluate Assignment.evaluate_swap (swap_elements 0 1) (evaluable 3%Q)
  = Undefined ∧
  apply Assignment.evaluate_swap (swap_elements 0 1) (evaluable 3%Q)
  = Undefined.
Proof.
  apply (type_mismatch Assignment.evaluate_swap (Assignment.start [0; 1; 2])
           (evaluable 3%Q) (evaluable 3%Q) (swap_elements 0 1));
    intros p; discriminate.
Defined.

(** Neither [apply] nor [evaluate] of a move throws on a solution that is
    not a [permutation_problem]. *)
Lemma type_mismatch_counterexample :
  ¬ (∃ e, apply Assignment.evaluate_swap (swap_elements 0 1) (evaluable 3%Q)
          = Throw e) ∧
  ¬ (∃ e, evaluate Assignment.evaluate_swap (invert_subsequence 0 1)
            (other_solution (double:=Q)) = Throw e).
Proof. split; intros [e E]; discriminate E. Qed.

(** The constructors at valid parameters. *)
Lemma construction_checks_witness :
  exponential_cooling (9 # 10)%Q = Ok (ExponentialCooling (9 # 10)%Q) ∧
  exponential_cooling 1%Q = Throw (runtime_error "alpha must be < 1") ∧
  linear_cooling (1 # 10)%Q = Ok (LinearCooling (1 # 10)%Q) ∧
  linear_cooling 0%Q = Throw (runtime_error "delta must be > 0") ∧
  (∃ moves_m, swap_full_neighborhood 4 = Ok moves_m) ∧
  (∃ moves_m, invert_full_neighborhood 4 = Ok moves_m).
Proof.
  destruct (construction_checks (ops:=Q_ops))
    as (Hexp & Hlin & Hswap & _ & Hinv & _).
  split; [apply (Hexp (9 # 10)%Q); reflexivity|].
  split; [apply (Hexp 1%Q); reflexivity|].
  split; [apply (Hlin (1 # 10)%Q); reflexivity|].
  split; [apply (Hlin 0%Q); reflexivity|].
  split; [apply (Hswap 4); lia|apply (Hinv 4); lia].
Defined.

(** [exponential_cooling] is constructed for [alpha = 0] and for
    [alpha = -1], and the neighborhoods for a size below 2. *)
Lemma construction_checks_counterexample :
  exponential_cooling 0%Q = Ok (ExponentialCooling 0%Q) ∧
  exponential_cooling (-1)%Q = Ok (ExponentialCooling (-1)%Q) ∧
  swap_full_neighborhood 1 = Ok [] ∧
  invert_full_neighborhood 1 = Ok [] ∧
  invert_full_neighborhood 0 = Ok [] ∧
  swap_neighborhood 1 = Ok [SwapElements 0 0] ∧
  swap_neighborhood 0 = Ok [].
Proof. by vm_compute. Qed.



(** The iteration cap with [max = 3] invoked five times. *)
Lemma iteration_cap_alone_witness :
  ∃ rs tc,
    chain_run (iteration_termination_criteria 3)
      (replicate 5 (other_solution (double:=Q))) = Ok (rs, tc) ∧
    length rs = 5%nat ∧
    (∀ k : nat, (k < 5)%nat → rs !! k = Some (bool_decide (3 ≤ Z.of_nat k))) ∧
    chain_reset tc = iteration_termination_criteria 3 ∧
    ∀ it, chain_reset (chain_node (iteration_criteria 3 it) null_chain)
          = iteration_termination_criteria 3.
Proof.
  apply (iteration_cap_alone (ops:=Q_ops) 3
           (replicate 5 (other_solution (double:=Q)))).
  lia.
Defined.

(** The no-improvement criterion with [max = 0] in front of an iteration
    cap. *)
Lemma noimprove_zero_witness :
  ∃ d',
    chain_run
      (noimprove_termination_criteria_next (iteration_termination_criteria 5)
         0 (1 # 10000000)%Q)
      (evaluable <$> [10; 8; 9]%Q)
    = Ok ([true; true; true],
          chain_node (noimprove_criteria d') (iteration_termination_criteria 5)).
Proof.
  refine (noimprove_zero (ops:=Q_ops) (1 # 10000000)%Q
            (iteration_termination_criteria 5) (evaluable <$> [10; 8; 9]%Q)
            _).
  repeat constructor; discriminate.
Defined.

(** The scenario: [search] evaluates the condition at the starting
    temperature 10 and goes on to a round; in that round the first swap
    is worse and rejected with the draw 0.99, the second is worse and
    accepted with the draw 0.5, and the temperature becomes 9. *)
Lemma search_spec_witness :
  (∃ sa0,
     current_temp_m sa0 = 10%Q ∧
     termination_criteria_m sa0
     = chain_node (iteration_criteria 500 499) null_chain ∧
     calls_m sa0 = [call_termination] ∧
     search Scenario.evaluate Scenario.apply Scenario.refresh
       Scenario.begin_end Scenario.accept Scenario.schedule Scenario.gen
       2 Scenario.start
     = sa1 ← search_round Scenario.evaluate Scenario.apply Scenario.refresh
               Scenario.begin_end Scenario.accept Scenario.schedule
               Scenario.gen sa0;
       search_loop Scenario.evaluate Scenario.apply Scenario.refresh
         Scenario.begin_end Scenario.accept Scenario.schedule Scenario.gen
         1 sa1) ∧
  ∃ sa' cs,
    search_round Scenario.evaluate Scenario.apply Scenario.refresh
      Scenario.begin_end Scenario.accept Scenario.schedule Scenario.gen
      Scenario.start = Ok sa' ∧
    calls_m sa' = call_refresh :: cs ++ [call_schedule] ∧
    evaluated cs = [SwapElements 0 1; SwapElements 0 2] ∧
    applied cs = [SwapElements 0 2] ∧
    notified cs = [MOVE_MADE] ∧
    current_temp_m sa' = 9%Q ∧
    working_solution_m sa'
    = permutation {| pi_m := [1; 2; 3; 0]; cost_m := 8%Q |} ∧
    solution_recorder_m sa' = 4%Q ∧
    current_move_m sa' = Some (SwapElements 0 2) ∧
    step_m sa' = Some MOVE_MADE ∧
    gen_m sa' = [].
Proof.
  pose proof (search_spec Scenario.evaluate Scenario.apply Scenario.refresh
                Scenario.begin_end Scenario.accept Scenario.schedule
                Scenario.gen) as (Hsearch & _ & _ & Hround & _).
  split.
  - destruct (Hsearch Scenario.start false
                (chain_node (iteration_criteria 500 499) null_chain) 1%nat
                eq_refl)
      as (sa0 & _ & Ht & Htc & Hcs & _ & Hgo).
    exists sa0. split; [exact Ht|]. split; [exact Htc|].
    split; [exact Hcs|]. apply Hgo; reflexivity.
  - destruct (Hround Scenario.start 4%Q Scenario.neighborhood
                [SwapElements 0 1]
                [SwapElements 0 3; SwapElements 1 2; SwapElements 1 3;
                 SwapElements 2 3]
                (SwapElements 0 2) [(1 # 2)%Q] 8%Q
                (permutation {| pi_m := [1; 2; 3; 0]; cost_m := 8%Q |})
                false 4%Q 9%Q (ExponentialCooling (9 # 10)%Q))
      as (sa' & cs & E & Hcs & He & Ha & Hn & Ht & _ & Hws & Hrec & Hcm
          & Hst & _ & Hg & _);
      try reflexivity; [right; reflexivity|].
    exists sa', cs. split; [exact E|]. split; [exact Hcs|].
    split; [exact He|]. split; [exact Ha|]. split; [exact Hn|].
    split; [exact Ht|]. split; [exact Hws|]. split; [exact Hrec|].
    split; [exact Hcm|]. split; [exact Hst|exact Hg].
Defined.

(** * Further properties *)

(** ** The full neighborhoods *)

Lemma for_loop_appends {A : Type} (body : Z → list A → outcome (list A))
    (f : Z → list A) (count : nat) :
  ∀ (ii : Z) (q : list A),
    (∀ k q, ii ≤ k < ii + Z.of_nat count → body k q = Ok (q ++ f k)) →
    for_loop count ii body q = Ok (q ++ (seqZ ii (Z.of_nat count) ≫= f)).
Proof.
  induction count as [|count IH]; intros ii q Hbody.
  { simpl. by rewrite app_nil_r. }
  cbn [for_loop]. rewrite Hbody by lia. cbn [mbind outcome_bind].
  rewrite IH by (intros; apply Hbody; lia).
  rewrite (seqZ_cons ii) by lia. rewrite bind_cons, app_assoc.
  replace (Z.succ ii) with (ii + 1) by lia.
  by replace (Z.pred (Z.of_nat (S count))) with (Z.of_nat count) by lia.
Qed.

Lemma bind_singletons {A B : Type} (g : A → B) (l : list A) :
  l ≫= (λ x, [g x]) = g <$> l.
Proof. induction l as [|x l IH]; [done|]. by rewrite bind_cons, IH. Qed.

Lemma swap_full_row_moves (size ii : Z) (q : list move) :
  0 ≤ ii → ii + 1 ≤ size →
  swap_full_row size ii q
  = Ok (q ++ (SwapElements ii <$> seqZ (ii + 1) (size - (ii + 1)))).
Proof.
  intros Hii Hs. unfold swap_full_row.
  destruct (Z.ltb_spec size (ii + 1)); [lia|].
  rewrite (for_loop_appends _ (λ jj, [SwapElements ii jj])).
  - by rewrite bind_singletons, Z2Nat.id by lia.
  - intros jj q' Hjj. unfold swap_elements.
    by rewrite Z.min_l, Z.max_r by lia.
Qed.

Lemma rows_length (size : Z) (count : nat) :
  ∀ first : Z,
    0 ≤ first → first + Z.of_nat count + 1 ≤ size →
    2 * Z.of_nat (length (seqZ first (Z.of_nat count) ≫=
                            λ i, SwapElements i <$>
                                   seqZ (i + 1) (size - (i + 1))))
    = Z.of_nat count * (2 * size - 2 * first - Z.of_nat count - 1).
Proof.
  induction count as [|count IH]; intros first Hf Hs; [simpl; lia|].
  rewrite seqZ_cons by lia. rewrite bind_cons, length_app, length_fmap.
  rewrite length_seqZ.
  replace (Z.pred (Z.of_nat (S count))) with (Z.of_nat count) by lia.
  specialize (IH (Z.succ first)). nia.
Qed.

(** X1.  For every [size >= 1], [swap_full_neighborhood(size)] returns
    with the moves [swap_elements(i, j)] for [0 <= i < j < size], in the
    order of its two loops and each one once: [size * (size - 1) / 2]
    moves. *)
Theorem swap_full_neighborhood_moves (size : Z) :
  1 ≤ size →
  swap_full_neighborhood size = Ok (ordered_pairs size) ∧
  2 * Z.of_nat (length (ordered_pairs size)) = size * (size - 1) ∧
  NoDup (ordered_pairs size) ∧
  ∀ m, m ∈ ordered_pairs size ↔
       ∃ p1 p2, m = SwapElements p1 p2 ∧ 0 ≤ p1 ∧ p1 < p2 ∧ p2 < size.
Proof.
  intros Hsize. split; [|split; [|split]].
  - unfold swap_full_neighborhood, for_upto.
    destruct (Z.ltb_spec (size - 1) 0); [lia|].
    rewrite (for_loop_appends _
               (λ i, SwapElements i <$> seqZ (i + 1) (size - (i + 1)))).
    + by rewrite Z2Nat.id by lia.
    + intros ii q Hii. apply swap_full_row_moves; lia.
  - unfold ordered_pairs.
    pose proof (rows_length size (Z.to_nat (size - 1)) 0) as Hl.
    rewrite Z2Nat.id in Hl by lia. rewrite Hl by lia. lia.
  - unfold ordered_pairs. apply NoDup_bind.
    + intros i1 i2 m _ _ H1 H2.
      apply list_elem_of_fmap in H1 as (j1 & -> & _).
      apply list_elem_of_fmap in H2 as (j2 & [= -> _] & _). done.
    + intros i _. apply NoDup_fmap_2; [|apply NoDup_seqZ].
      by intros j1 j2 [= ->].
    + apply NoDup_seqZ.
  - intros m. unfold ordered_pairs. rewrite list_elem_of_bind. split.
    + intros (i & Hm & Hi). apply list_elem_of_fmap in Hm as (j & -> & Hj).
      apply elem_of_seqZ in Hi, Hj. exists i, j. split; [done|]. lia.
    + intros (p1 & p2 & -> & H1 & H2 & H3). exists p1. split.
      * apply list_elem_of_fmap. exists p2. split; [done|].
        apply elem_of_seqZ. lia.
      * apply elem_of_seqZ. lia.
Qed.

Lemma invert_full_row_moves (size ii : Z) (q : list move) :
  0 ≤ size →
  invert_full_row size ii q
  = Ok (q ++ (InvertSubsequence ii <$> filter (λ j, ii ≠ j) (seqZ 0 size))).
Proof.
  intros Hs. unfold invert_full_row, for_upto.
  destruct (Z.ltb_spec size 0); [lia|].
  rewrite (for_loop_appends _
             (λ jj, if bool_decide (ii ≠ jj)
                    then [InvertSubsequence ii jj] else [])).
  - rewrite Z2Nat.id by lia. do 2 f_equal.
    induction (seqZ 0 size) as [|j l IH]; [done|].
    rewrite bind_cons, filter_cons, IH.
    destruct (decide (ii ≠ j)).
    + by rewrite bool_decide_eq_true_2.
    + by rewrite bool_decide_eq_false_2.
  - intros jj q' _. destruct (bool_decide (ii ≠ jj)); [done|].
    by rewrite app_nil_r.
Qed.

Lemma filter_ne_length (i : Z) (l : list Z) :
  NoDup l → i ∈ l →
  S (length (filter (λ j, i ≠ j) l)) = length l.
Proof.
  induction 1 as [|x l Hx Hnd IH]; intros Hi; [by apply elem_of_nil in Hi|].
  rewrite filter_cons. destruct (decide (i ≠ x)) as [Hne|Heq].
  - simpl. f_equal. apply IH.
    apply elem_of_cons in Hi as [->|?]; done.
  - assert (i = x) as -> by (destruct (decide (i = x)); [done|by destruct Heq]).
    simpl. f_equal.
    clear IH Hi Hnd Heq. induction l as [|y l IH]; [done|].
    rewrite filter_cons.
    destruct (decide (x ≠ y)) as [?|Hxy].
    + simpl. f_equal. apply IH. intros ?. apply Hx. by right.
    + exfalso. apply Hx. destruct (decide (x = y)) as [->|?]; [by left|].
      by destruct Hxy.
Qed.

Lemma invert_rows_length (size : Z) (rows : list Z) :
  0 ≤ size → (∀ i, i ∈ rows → 0 ≤ i < size) →
  Z.of_nat (length (rows ≫= λ i, InvertSubsequence i <$>
                                   filter (λ j, i ≠ j) (seqZ 0 size)))
  = Z.of_nat (length rows) * (size - 1).
Proof.
  intros Hs. induction rows as [|i rows IH]; intros Hin; [simpl; lia|].
  rewrite bind_cons, length_app, length_fmap.
  pose proof (filter_ne_length i (seqZ 0 size) (NoDup_seqZ _ _)) as Hl.
  rewrite length_seqZ in Hl.
  assert (Hi : i ∈ seqZ 0 size).
  { apply elem_of_seqZ. specialize (Hin i). rewrite elem_of_cons in Hin.
    specialize (Hin (or_introl eq_refl)). lia. }
  specialize (Hl Hi).
  rewrite Nat2Z.inj_add, IH.
  2:{ intros j Hj. apply Hin. by right. }
  simpl length. lia.
Qed.

(** X2.  For every [size >= 0], [invert_full_neighborhood(size)] returns
    with the moves [invert_subsequence(i, j)] for the indices
    [0 <= i, j < size] with [i != j], in the order of its two loops and
    each one once: [size * (size - 1)] moves. *)
Theorem invert_full_neighborhood_moves (size : Z) :
  0 ≤ size →
  invert_full_neighborhood size = Ok (distinct_pairs size) ∧
  Z.of_nat (length (distinct_pairs size)) = size * (size - 1) ∧
  NoDup (distinct_pairs size) ∧
  ∀ m, m ∈ distinct_pairs size ↔
       ∃ p1 p2, m = InvertSubsequence p1 p2 ∧
                0 ≤ p1 < size ∧ 0 ≤ p2 < size ∧ p1 ≠ p2.
Proof.
  intros Hsize. split; [|split; [|split]].
  - unfold invert_full_neighborhood, for_upto.
    destruct (Z.ltb_spec size 0); [lia|].
    rewrite (for_loop_appends _
               (λ i, InvertSubsequence i <$>
                       filter (λ j, i ≠ j) (seqZ 0 size))).
    + by rewrite Z2Nat.id by lia.
    + intros ii q Hii. by apply invert_full_row_moves.
  - unfold distinct_pairs. rewrite invert_rows_length; [|done|].
    + rewrite length_seqZ. lia.
    + intros i Hi. apply elem_of_seqZ in Hi. lia.
  - unfold distinct_pairs. apply NoDup_bind.
    + intros i1 i2 m _ _ H1 H2.
      apply list_elem_of_fmap in H1 as (j1 & -> & _).
      apply list_elem_of_fmap in H2 as (j2 & [= -> _] & _). done.
    + intros i _. apply NoDup_fmap_2; [by intros j1 j2 [= ->]|].
      apply NoDup_filter, NoDup_seqZ.
    + apply NoDup_seqZ.
  - intros m. unfold distinct_pairs. rewrite list_elem_of_bind. split.
    + intros (i & Hm & Hi). apply list_elem_of_fmap in Hm as (j & -> & Hj).
      apply list_elem_of_filter in Hj as [Hne Hj].
      apply elem_of_seqZ in Hi, Hj. exists i, j. split; [done|]. lia.
    + intros (p1 & p2 & -> & H1 & H2 & Hne). exists p1. split.
      * apply list_elem_of_fmap. exists p2. split; [done|].
        apply list_elem_of_filter. split; [done|]. apply elem_of_seqZ. lia.
      * apply elem_of_seqZ. lia.
Qed.

(** ** The identity of moves *)

Lemma shifted_xor (p1 p2 : Z) :
  0 ≤ p1 → 0 ≤ p2 < 2 ^ 16 →
  Z.lxor (Z.shiftl p1 16) p2 = p1 * 2 ^ 16 + p2.
Proof.
  intros H1 H2. rewrite <- Z.add_nocarry_lxor.
  { by rewrite Z.shiftl_mul_pow2. }
  apply Z.bits_inj'. intros n Hn. rewrite Z.land_spec, Z.bits_0.
  destruct (Z.lt_ge_cases n 16) as [Hlt|Hge].
  - by rewrite Z.shiftl_spec_low.
  - rewrite (Z.bits_above_log2 p2 n), andb_false_r; [done|lia|].
    destruct (decide (p2 = 0)) as [->|?]; [simpl; lia|].
    apply Z.log2_lt_pow2; [lia|].
    apply Z.lt_le_trans with (2 ^ 16); [lia|].
    apply Z.pow_le_mono_r; lia.
Qed.

Lemma hash_value (m : move) :
  0 ≤ (move_fields m).1 < 2 ^ 15 → 0 ≤ (move_fields m).2 < 2 ^ 16 →
  hash m = Ok ((move_fields m).1 * 2 ^ 16 + (move_fields m).2).
Proof.
  unfold hash. destruct (move_fields m) as [p1 p2]. simpl. intros H1 H2.
  assert (Hs : c_shiftl16 p1 = Ok (Z.shiftl p1 16)).
  { unfold c_shiftl16. rewrite Z.shiftl_mul_pow2 by lia.
    change (2 ^ 15) with 32768 in *. change (2 ^ 16) with 65536 in *.
    change (2 ^ 31) with 2147483648.
    by rewrite bool_decide_eq_true_2 by lia. }
  rewrite Hs. cbn [mbind outcome_bind]. rewrite shifted_xor by lia.
  unfold to_size_t.
  change (2 ^ 15) with 32768 in *. change (2 ^ 16) with 65536 in *.
  change (2 ^ 64) with 18446744073709551616.
  by rewrite Z.mod_small by lia.
Qed.

Lemma move_eq_true (this o : move) : move_eq this o = true ↔ this = o.
Proof.
  destruct this as [p1 p2|p1 p2], o as [q1 q2|q1 q2]; simpl;
    rewrite ?andb_true_iff, ?Z.eqb_eq; split;
    try done; try (by intros [-> ->]); by intros [= -> ->].
Qed.

(** X3.  For moves with [0 <= p1 < 2^15] and [0 <= p2 < 2^16], [hash()]
    is [p1 * 65536 + p2]; two such moves have the same hash exactly when
    they have the same [p1] and [p2]; moves that [operator==] finds equal
    have the same hash; and two moves with the same hash that
    [operator==] tells apart are a [swap_elements] and an
    [invert_subsequence] with the same [p1] and [p2]. *)
Theorem hash_separates (m1 m2 : move) :
  0 ≤ (move_fields m1).1 < 2 ^ 15 → 0 ≤ (move_fields m1).2 < 2 ^ 16 →
  0 ≤ (move_fields m2).1 < 2 ^ 15 → 0 ≤ (move_fields m2).2 < 2 ^ 16 →
  hash m1 = Ok ((move_fields m1).1 * 65536 + (move_fields m1).2) ∧
  (hash m1 = hash m2 ↔ move_fields m1 = move_fields m2) ∧
  (move_eq m1 m2 = true → hash m1 = hash m2) ∧
  (hash m1 = hash m2 → move_eq m1 m2 = false →
   m1 = SwapElements (move_fields m2).1 (move_fields m2).2 ∧
   m2 = InvertSubsequence (move_fields m1).1 (move_fields m1).2 ∨
   m1 = InvertSubsequence (move_fields m2).1 (move_fields m2).2 ∧
   m2 = SwapElements (move_fields m1).1 (move_fields m1).2).
Proof.
  intros Ha1 Ha2 Hb1 Hb2.
  rewrite (hash_value m1), (hash_value m2) by done.
  change (2 ^ 16) with 65536 in *. change (2 ^ 15) with 32768 in *.
  assert (Hiff : Ok (A:=Z) ((move_fields m1).1 * 65536 + (move_fields m1).2)
                 = Ok ((move_fields m2).1 * 65536 + (move_fields m2).2)
                 ↔ move_fields m1 = move_fields m2).
  { split.
    - intros [= E]. destruct (move_fields m1) as [a1 a2],
        (move_fields m2) as [b1 b2]. simpl in *.
      assert (a1 = b1) by lia. subst. f_equal. lia.
    - by intros ->. }
  split; [done|]. split; [done|]. split.
  - intros ->%move_eq_true. done.
  - intros E%Hiff Hne.
    destruct m1 as [a1 a2|a1 a2], m2 as [b1 b2|b1 b2]; simpl in *;
      injection E as -> ->.
    + by rewrite !Z.eqb_refl in Hne.
    + by left.
    + by right.
    + by rewrite !Z.eqb_refl in Hne.
Qed.

(** X4.  [operator==] answers true exactly for two moves of the same
    class with the same [p1] and [p2], in either order of the operands;
    [swap_elements(a, b)] and [swap_elements(b, a)] are equal, while
    [invert_subsequence(a, b)] and [invert_subsequence(b, a)] are equal
    only for [a = b], and a [swap_elements] never equals an
    [invert_subsequence]; [change(a, b)] turns any move into the one the
    constructor of its class builds from [a] and [b], whatever it held;
    the constructor and [change] leave a [swap_elements] with
    [p1 <= p2], and for such a move, and for every
    [invert_subsequence], [clone()] and [opposite_of()] return an equal
    move. *)
Theorem move_identity (a b : Z) (m o : move) :
  (move_eq m o = true ↔ m = o) ∧
  move_eq m o = move_eq o m ∧
  move_eq (swap_elements a b) (swap_elements b a) = true ∧
  (move_eq (invert_subsequence a b) (invert_subsequence b a) = true ↔ a = b) ∧
  move_eq (swap_elements a b) (invert_subsequence a b) = false ∧
  change a b m
  = match m with
    | SwapElements _ _ => swap_elements a b
    | InvertSubsequence _ _ => invert_subsequence a b
    end ∧
  (∀ c d, change a b (change c d m) = change a b m) ∧
  (∀ p1 p2, change a b m = SwapElements p1 p2 → p1 ≤ p2) ∧
  (∀ p1 p2, swap_elements a b = SwapElements p1 p2 → p1 ≤ p2) ∧
  ((∀ p1 p2, m = SwapElements p1 p2 → p1 ≤ p2) →
   move_eq (clone m) m = true ∧ move_eq (opposite_of m) m = true ∧
   hash (clone m) = hash m).
Proof.
  split; [apply move_eq_true|]. split.
  { destruct m as [p1 p2|p1 p2], o as [q1 q2|q1 q2]; simpl; try done;
      by rewrite (Z.eqb_sym p1), (Z.eqb_sym p2). }
  split.
  { apply move_eq_true. unfold swap_elements.
    by rewrite (Z.min_comm a), (Z.max_comm a). }
  split.
  { rewrite move_eq_true. unfold invert_subsequence. split.
    - by intros [= -> _].
    - by intros ->. }
  split; [done|]. split; [by destruct m|]. split; [by destruct m|]. split.
  { intros p1 p2. destruct m; simpl; intros [= <- <-]; lia. }
  split.
  { intros p1 p2. unfold swap_elements. intros [= <- <-]. lia. }
  intros Hord.
  assert (E : clone m = m).
  { destruct m as [p1 p2|p1 p2]; [|done].
    specialize (Hord p1 p2 eq_refl). unfold clone, swap_elements.
    by rewrite Z.min_l, Z.max_r by lia. }
  unfold opposite_of. rewrite E.
  split; [by apply move_eq_true|]. split; [by apply move_eq_true|done].
Qed.

(** ** Moves applied twice *)

Section TwiceFacts.
Context {double : Type} {ops : FloatOps double}.
Variable evaluate_swap : permutation_problem double → Z → Z → double.

Lemma cells_eq (v w : list Z) :
  length v = length w →
  (∀ x, 0 ≤ x < Z.of_nat (length w) → v !! Z.to_nat x = w !! Z.to_nat x) →
  v = w.
Proof.
  intros Hl Hc. apply list_eq. intros k.
  destruct (decide (k < length w)%nat) as [Hk|Hk].
  - specialize (Hc (Z.of_nat k)). rewrite Nat2Z.id in Hc. apply Hc. lia.
  - rewrite !lookup_ge_None_2; [done|lia..].
Qed.

(** X5.  For indices within the size, [apply_swap(i, j)] called twice
    returns normally both times and leaves [pi_m] as it was before the
    first call; the cost it leaves is the cost before plus the delta read
    before the first exchange plus the delta read before the second; and
    [apply_swap(j, i)] leaves the same [pi_m] as [apply_swap(i, j)]. *)
Theorem apply_swap_twice (p : permutation_problem double) (i j : Z) :
  0 ≤ i < size p → 0 ≤ j < size p →
  ∃ p1 p2 q,
    apply_swap evaluate_swap i j p = Ok p1 ∧
    apply_swap evaluate_swap i j p1 = Ok p2 ∧
    pi_m p2 = pi_m p ∧
    cost_m p2
    = fadd (fadd (cost_m p) (evaluate_swap p i j)) (evaluate_swap p1 i j) ∧
    apply_swap evaluate_swap j i p = Ok q ∧
    pi_m q = pi_m p1.
Proof.
  intros Hi Hj.
  destruct (apply_swap_cells evaluate_swap p i j Hi Hj)
    as (p1 & E1 & Hc1 & _ & Hl1 & Hi1 & Hj1 & Hk1).
  assert (Hs1 : size p1 = size p) by (unfold size; lia).
  destruct (apply_swap_cells evaluate_swap p1 i j)
    as (p2 & E2 & Hc2 & _ & Hl2 & Hi2 & Hj2 & Hk2); [lia..|].
  destruct (apply_swap_cells evaluate_swap p j i Hj Hi)
    as (q & E3 & _ & _ & Hl3 & Hi3 & Hj3 & Hk3).
  exists p1, p2, q. split; [done|]. split; [done|]. split; [|split; [|split]].
  - apply cells_eq; [lia|]. intros x Hx.
    destruct (decide (Z.to_nat x = Z.to_nat i)) as [->|Hxi].
    { by rewrite Hi2, Hj1. }
    destruct (decide (Z.to_nat x = Z.to_nat j)) as [->|Hxj].
    { by rewrite Hj2, Hi1. }
    by rewrite Hk2, Hk1.
  - by rewrite Hc2, Hc1.
  - done.
  - apply cells_eq; [lia|]. intros x Hx.
    destruct (decide (Z.to_nat x = Z.to_nat i)) as [->|Hxi].
    { by rewrite Hj3, Hi1. }
    destruct (decide (Z.to_nat x = Z.to_nat j)) as [->|Hxj].
    { by rewrite Hi3, Hj1. }
    by rewrite Hk3, Hk1.
Qed.

Ltac split_wraps :=
  repeat match goal with
         | |- context [bool_decide ?P] => destruct (bool_decide_reflect P)
         | |- context [?a <? ?b] => destruct (Z.ltb_spec a b)
         | H : context [?a <? ?b] |- _ => destruct (Z.ltb_spec a b)
         end; try lia.

(** The cells after [invert_subsequence::apply], for different indices. *)
Lemma invert_apply_cells (p : permutation_problem double) (p1 p2 : Z) :
  0 ≤ p1 < size p → 0 ≤ p2 < size p → p1 ≠ p2 →
  ∃ p',
    apply evaluate_swap (InvertSubsequence p1 p2) (permutation p)
    = Ok (permutation p') ∧
    size p' = size p ∧
    ∀ x, 0 ≤ x < size p →
      pi_m p' !! Z.to_nat x
      = pi_m p !! Z.to_nat
          (arc_source (size p) p1 p2 (arc_length (size p) p1 p2)
             (arc_length (size p) p1 p2 `div` 2) x).
Proof.
  intros H1 H2 Hne. set (n := size p) in *.
  destruct (arc_length_top n p1 p2 H1 H2 Hne) as (Ht & Hl & Hp2).
  set (len := arc_length n p1 p2) in *.
  assert (Hhalf : 0 ≤ len `div` 2) by (apply Z.div_pos; lia).
  destruct (arc_rounds evaluate_swap (pi_m p) n p1 p2 len
              (Z.to_nat (len `div` 2)) H1 H2 Hl Hp2 0 p)
    as (p' & E & Hs & Hinv).
  { lia. }
  { rewrite Z2Nat.id by done. pose proof (Z.mul_div_le len 2). lia. }
  { done. }
  { intros x Hx. unfold arc_source.
    rewrite bool_decide_eq_false_2; [done|].
    pose proof (Z.mod_pos_bound (x - p1) n). lia. }
  rewrite Z2Nat.id in E, Hinv by done.
  exists p'. split; [|split; [done|]].
  - rewrite invert_apply_swaps by done. fold n.
    rewrite <- Ht, Z.quot_div_nonneg by lia. by rewrite E.
  - intros x Hx. by rewrite Hinv.
Qed.

Lemma arc_source_twice (n p1 p2 len x : Z) :
  0 ≤ p1 < n → 0 ≤ p2 < n → 1 ≤ len ≤ n →
  p2 = p1 + len - 1 ∨ p2 = p1 + len - 1 - n →
  0 ≤ x < n →
  0 ≤ arc_source n p1 p2 len (len `div` 2) x < n ∧
  arc_source n p1 p2 len (len `div` 2)
    (arc_source n p1 p2 len (len `div` 2) x) = x.
Proof.
  intros H1 H2 Hl Hp2 Hx.
  assert (Hdiv : 2 * (len `div` 2) ≤ len < 2 * (len `div` 2) + 2).
  { pose proof (Z.mul_div_le len 2). pose proof (Z.mul_succ_div_gt len 2).
    lia. }
  set (h := len `div` 2) in *. clearbody h.
  assert (Hy : 0 ≤ arc_source n p1 p2 len h x < n).
  { unfold arc_source. rewrite !mod_wrap by lia. split_wraps. }
  split; [done|].
  set (y := arc_source n p1 p2 len h x) in *.
  assert (Hyx : y = arc_source n p1 p2 len h x) by done.
  clearbody y. unfold arc_source in Hyx |- *.
  rewrite !mod_wrap in Hyx |- * by lia.
  destruct (bool_decide_reflect
              ((if x - p1 <? 0 then x - p1 + n
                else if x - p1 <? n then x - p1 else x - p1 - n) < h
               ∨ len - h ≤ (if x - p1 <? 0 then x - p1 + n
                            else if x - p1 <? n then x - p1 else x - p1 - n)
                 < len)) as [Hin|Hout];
    split_wraps.
Qed.

(** X6.  For two different indices within the size,
    [invert_subsequence(p1, p2).apply] called twice returns normally both
    times and leaves [pi_m] as it was before the first call. *)
Theorem invert_apply_twice (p : permutation_problem double) (p1 p2 : Z) :
  0 ≤ p1 < size p → 0 ≤ p2 < size p → p1 ≠ p2 →
  ∃ p' p'',
    apply evaluate_swap (invert_subsequence p1 p2) (permutation p)
    = Ok (permutation p') ∧
    apply evaluate_swap (invert_subsequence p1 p2) (permutation p')
    = Ok (permutation p'') ∧
    pi_m p'' = pi_m p.
Proof.
  intros H1 H2 Hne. unfold invert_subsequence.
  destruct (invert_apply_cells p p1 p2 H1 H2 Hne) as (p' & E1 & Hs1 & Hc1).
  destruct (invert_apply_cells p' p1 p2) as (p'' & E2 & Hs2 & Hc2);
    [lia..|done|].
  exists p', p''. split; [done|]. split; [done|].
  rewrite Hs1 in Hc2.
  destruct (arc_length_top (size p) p1 p2 H1 H2 Hne) as (_ & Hl & Hp2).
  apply cells_eq.
  { unfold size in Hs1, Hs2. lia. }
  intros x Hx. fold (size p) in Hx.
  destruct (arc_source_twice (size p) p1 p2 (arc_length (size p) p1 p2) x)
    as [Hr Hback]; [done..|].
  rewrite Hc2 by done. rewrite Hc1 by done. by rewrite Hback.
Qed.

End TwiceFacts.

(** ** The re-roll loop *)

Section StochasticFacts.
Context {double : Type} {ops : FloatOps double}.
Variable evaluate_swap : permutation_problem double → Z → Z → double.
Variable random_generator : Type.
Variable int_range : random_generator → Z → Z * random_generator.

(** [int_range(rng, n)] draws from [0, n). *)
Hypothesis int_range_bounds :
  ∀ rng n, 0 < n → 0 ≤ (int_range rng n).1 < n.

Lemma reroll_single (fuel : nat) (rng : random_generator) :
  reroll random_generator int_range fuel 1 0 0 rng = OutOfFuel.
Proof.
  revert rng. induction fuel as [|fuel IH]; intros rng; [done|].
  cbn [reroll]. simpl.
  pose proof (int_range_bounds rng 1 ltac:(lia)) as Hb.
  destruct (int_range rng 1) as [p2 rng']. simpl in Hb.
  assert (p2 = 0) as -> by lia. apply IH.
Qed.

(** X7.  [swap_neighborhood::randomize_move(m, size)] with a positive
    [size] and a generator drawing from [0, size) never fails, whatever
    [m] held: when it returns, [m] holds [0 <= p1 < p2 < size]; it
    returns for sure when the re-roll loop ends within the fuel; and for
    [size = 1] the re-roll loop never ends. *)
Theorem randomize_move_normalizes (fuel : nat) (size : Z)
    (rng : random_generator) :
  0 < size →
  match randomize_move random_generator int_range fuel size rng with
  | Ok (m, _) => normal_swap size m
  | OutOfFuel => True
  | _ => False
  end ∧
  ((∀ p1 p2 r, 0 ≤ p1 < size → 0 ≤ p2 < size →
      ∃ x, reroll random_generator int_range fuel size p1 p2 r = Ok x) →
   ∃ r, randomize_move random_generator int_range fuel size rng = Ok r) ∧
  (size = 1 →
   randomize_move random_generator int_range fuel size rng = OutOfFuel).
Proof.
  intros Hn. unfold randomize_move.
  pose proof (int_range_bounds rng size Hn) as Hb1.
  destruct (int_range rng size) as [p1 rng1].
  pose proof (int_range_bounds rng1 size Hn) as Hb2.
  destruct (int_range rng1 size) as [p2 rng2].
  simpl in Hb1, Hb2. split; [|split].
  - pose proof (reroll_distinct random_generator int_range int_range_bounds
                  size fuel Hn p1 p2 rng2 Hb2) as Hr.
    destruct (reroll _ _ _ _ _ _ _) as [[p2' rng3]| | | |]; simpl; try done.
    destruct Hr as [Hb3 Hne].
    exists (Z.min p1 p2'), (Z.max p1 p2'). split; [done|]. lia.
  - intros Hre. destruct (Hre p1 p2 rng2 Hb1 Hb2) as [[p2' rng3] ->].
    by eexists.
  - intros ->. assert (p1 = 0) as -> by lia. assert (p2 = 0) as -> by lia.
    by rewrite reroll_single.
Qed.

Lemma perturbate_body_single (fuel : nat) (ii : Z)
    (p : permutation_problem double) (rng : random_generator) :
  size p = 1 →
  perturbate_body evaluate_swap random_generator int_range fuel ii (p, rng)
  = OutOfFuel.
Proof.
  intros Hs. unfold perturbate_body. rewrite Hs.
  pose proof (int_range_bounds rng 1 ltac:(lia)) as Hb1.
  destruct (int_range rng 1) as [p1 rng1]. simpl in Hb1.
  pose proof (int_range_bounds rng1 1 ltac:(lia)) as Hb2.
  destruct (int_range rng1 1) as [p2 rng2]. simpl in Hb2.
  assert (p1 = 0) as -> by lia. assert (p2 = 0) as -> by lia.
  by rewrite reroll_single.
Qed.

(** X8.  On a permutation problem of size 1 the re-roll loop of
    [perturbate] never ends, whatever the generator drawing from [0, 1)
    does: [perturbate] with one swap or more runs out of every fuel. *)
Theorem single_cell_never_returns (fuel k : nat)
    (p : permutation_problem double) (rng : random_generator) :
  size p = 1 → (0 < k)%nat →
  perturbate evaluate_swap random_generator int_range fuel p k rng
  = OutOfFuel.
Proof.
  intros Hs Hk. destruct k as [|k]; [lia|].
  unfold perturbate. cbn [for_loop].
  by rewrite perturbate_body_single.
Qed.

End StochasticFacts.

(** ** Chains of termination criteria *)

Section ChainFacts.
Context {double : Type} {ops : FloatOps double}.





Lemma iteration_front_run (max : Z)
    (fss : list (feasible_solution double)) :
  ∀ (it : Z) (next next' : termination_criteria_chain double)
    (rs : list bool),
    0 ≤ it →
    chain_run next (take (Z.to_nat it) fss) = Ok (rs, next') →
    chain_run (chain_node (iteration_criteria max it) next) fss
    = Ok (rs ++ replicate (length fss - Z.to_nat it) true,
          chain_node (iteration_criteria max (it - Z.of_nat (length rs)))
            next').
Proof.
  induction fss as [|fs fss IH]; intros it next next' rs Hit E.
  { rewrite take_nil in E. injection E as <- <-. simpl.
    by rewrite Z.sub_0_r. }
  cbn [chain_run chain_call].
  destruct (Z.leb_spec it 0) as [Hle|Hgt].
  - assert (it = 0) as -> by lia. simpl in E. injection E as <- <-.
    cbn [mbind outcome_bind].
    rewrite (IH 0 next next []) by done.
    cbn [mbind outcome_bind]. simpl. by rewrite !Nat.sub_0_r.
  - replace (Z.to_nat it) with (S (Z.to_nat (it - 1))) in E |- * by lia.
    cbn [take chain_run] in E.
    destruct (chain_call next fs) as [[r next1]| | | |]; try done.
    cbn [mbind outcome_bind] in E |- *.
    destruct (chain_run next1 (take (Z.to_nat (it - 1)) fss))
      as [[rs1 next2]| | | |] eqn:E1; try done.
    cbn [mbind outcome_bind] in E. injection E as <- <-.
    rewrite (IH (it - 1) next1 next2 rs1) by (done || lia).
    cbn [mbind outcome_bind].
    replace (it - Z.of_nat (length (r :: rs1)))
      with (it - 1 - Z.of_nat (length rs1)) by (simpl length; lia).
    done.
Qed.

(** X10.  An [iteration_termination_criteria(next, max)] with
    [max >= 0] in front of a chain [next]: its first [max] invocations
    answer what [next] answers when invoked on the same solutions, every
    later invocation answers true, and [next] is left as those [max]
    invocations leave it: it is not invoked again. *)
Theorem iteration_cap_in_front (max : Z)
    (next next' : termination_criteria_chain double)
    (fss : list (feasible_solution double)) (rs : list bool) :
  0 ≤ max →
  chain_run next (take (Z.to_nat max) fss) = Ok (rs, next') →
  chain_run (iteration_termination_criteria_next next max) fss
  = Ok (rs ++ replicate (length fss - Z.to_nat max) true,
        chain_node (iteration_criteria max (max - Z.of_nat (length rs)))
          next').
Proof. intros Hmax E. by apply iteration_front_run. Qed.

Lemma count_answers_cons (b r : bool) (rs : list bool) :
  count_answers b (r :: rs)
  = (if bool_decide (r = b) then 1 else 0) + count_answers b rs.
Proof.
  unfold count_answers. rewrite filter_cons.
  destruct (decide (r = b)).
  - rewrite bool_decide_eq_true_2 by done. simpl length. lia.
  - rewrite bool_decide_eq_false_2 by done. lia.
Qed.

Lemma noimprove_counters (max : Z) :
  0 ≤ max →
  ∀ (fss : list (feasible_solution double)) (costs : list double)
    (d : noimprove_data double),
    Forall2 (λ fs c, dynamic_cast_cost fs = Ok c) fss costs →
    max_noimprove_m d = max →
    0 ≤ iterations_left_m d ≤ max → 0 ≤ second_guess_m d ≤ max →
    ∃ rs d',
      chain_run (chain_node (noimprove_criteria d) null_chain) fss
      = Ok (rs, chain_node (noimprove_criteria d') null_chain) ∧
      total_iterations_m d' = total_iterations_m d + count_answers false rs ∧
      resets_m d'
      = resets_m d
        + count_answers true
            (improving_calls (best_cost_m d) (epsilon_m d) costs) ∧
      0 ≤ iterations_left_m d' ≤ max ∧ 0 ≤ second_guess_m d' ≤ max ∧
      max_noimprove_m d' = max ∧ epsilon_m d' = epsilon_m d.
Proof.
  intros Hmax fss costs d Hall. revert d.
  induction Hall as [|fs c fss costs Hc _ IH]; intros d Hm Hleft Hsg.
  { exists [], d. unfold count_answers. simpl.
    repeat split; try done; lia. }
  cbn [chain_run chain_call improving_calls]. rewrite Hc.
  cbn [mbind outcome_bind].
  set (d1 := noimprove_observe c d).
  assert (Hobs : max_noimprove_m d1 = max ∧ epsilon_m d1 = epsilon_m d ∧
            0 ≤ iterations_left_m d1 ≤ max ∧ 0 ≤ second_guess_m d1 ≤ max ∧
            total_iterations_m d1 = total_iterations_m d ∧
            if fltb c (fsub (best_cost_m d) (epsilon_m d))
            then best_cost_m d1 = c ∧ resets_m d1 = resets_m d + 1
            else best_cost_m d1 = best_cost_m d ∧ resets_m d1 = resets_m d).
  { unfold d1, noimprove_observe.
    destruct (fltb c (fsub (best_cost_m d) (epsilon_m d))); simpl;
      repeat split; try done; lia. }
  clearbody d1.
  destruct Hobs as (Hm1 & He1 & Hl1 & Hs1 & Ht1 & Hb1).
  destruct (Z.leb_spec (iterations_left_m d1) 0) as [Hle|Hgt].
  - destruct (IH d1 Hm1 Hl1 Hs1) as (rs & d' & E & Ht & Hr & Hl' & Hs' & Hm' & He').
    cbn [mbind outcome_bind]. rewrite E. cbn [mbind outcome_bind].
    exists (true :: rs), d'. split; [done|].
    rewrite !count_answers_cons. rewrite He1 in Hr.
    destruct (fltb c (fsub (best_cost_m d) (epsilon_m d)));
      destruct Hb1 as [Hb1 Hr1]; rewrite Hb1 in Hr;
      rewrite ?count_answers_cons; simpl bool_decide;
      repeat split; try lia; congruence.
  - cbn [chain_call mbind outcome_bind].
    destruct (IH (noimprove_count d1)) as
      (rs & d' & E & Ht & Hr & Hl' & Hs' & Hm' & He'); simpl; [done|lia|lia|].
    rewrite E. cbn [mbind outcome_bind].
    exists (false :: rs), d'. split; [done|].
    rewrite !count_answers_cons. simpl in Ht, Hr, He'. rewrite He1 in Hr.
    destruct (fltb c (fsub (best_cost_m d) (epsilon_m d)));
      destruct Hb1 as [Hb1 Hr1]; rewrite Hb1 in Hr;
      rewrite ?count_answers_cons; simpl bool_decide;
      repeat split; try lia; congruence.
Qed.

(** X11.  After any number of invocations of a
    [noimprove_termination_criteria(max, epsilon)] with [max >= 0] and no
    next criterion on evaluable solutions, [iteration()] is the number of
    invocations that answered false, [resets()] is the number of
    invocations whose cost improved on the tracked best by more than
    [epsilon], and the countdown and [second_guess()] lie between 0 and
    [max]. *)
Theorem noimprove_accounting (max : Z) (epsilon : double)
    (fss : list (feasible_solution double)) (costs : list double) :
  0 ≤ max →
  Forall2 (λ fs c, dynamic_cast_cost fs = Ok c) fss costs →
  ∃ rs d',
    chain_run (noimprove_termination_criteria max epsilon) fss
    = Ok (rs, chain_node (noimprove_criteria d') null_chain) ∧
    total_iterations_m d' = count_answers false rs ∧
    resets_m d'
    = count_answers true (improving_calls fmax_value epsilon costs) ∧
    0 ≤ iterations_left_m d' ≤ max ∧ 0 ≤ second_guess_m d' ≤ max.
Proof.
  intros Hmax Hall.
  destruct (noimprove_counters max Hmax fss costs (new_noimprove max epsilon)
              Hall) as (rs & d' & E & Ht & Hr & Hl & Hs & _);
    simpl; [done|lia|lia|].
  exists rs, d'. simpl in Ht, Hr. repeat split; try done; lia.
Qed.

End ChainFacts.

(** ** The evaluation of an inversion, in general *)

Section EvaluateFacts.
Context {double : Type} {ops : FloatOps double}.
Variable evaluate_swap : permutation_problem double → Z → Z → double.

Lemma invert_evaluate_loop (sol : permutation_problem double)
    (n p1 p2 : Z) (count : nat) :
  0 < n → 0 ≤ p1 → 0 ≤ p2 →
  ∀ (ii : Z) (eval : double),
    0 ≤ ii → ii + Z.of_nat count ≤ n + 1 →
    for_loop count ii (invert_evaluate_body evaluate_swap sol n p1 p2) eval
    = Ok (foldl (λ e (ij : Z * Z), fadd e (evaluate_swap sol ij.1 ij.2)) eval
            ((λ k, (Z.rem (p1 + k) n, Z.rem (n + p2 - k) n)) <$>
               seqZ ii (Z.of_nat count))).
Proof.
  intros Hn H1 H2. induction count as [|count IH]; intros ii eval Hii Hc.
  { done. }
  rewrite seqZ_cons, fmap_cons by lia. cbn [for_loop foldl].
  assert (Hb : invert_evaluate_body evaluate_swap sol n p1 p2 ii eval
               = Ok (fadd eval (evaluate_swap sol (Z.rem (p1 + ii) n)
                                  (Z.rem (n + p2 - ii) n)))).
  { unfold invert_evaluate_body.
    by destruct (invert_indices_ok n p1 p2 ii) as [-> _]; [lia..|]. }
  rewrite Hb. cbn [mbind outcome_bind]. rewrite IH by lia.
  replace (Z.succ ii) with (ii + 1) by lia.
  by replace (Z.pred (Z.of_nat (S count))) with (Z.of_nat count) by lia.
Qed.

(** X12.  For two different indices within the size,
    [invert_subsequence(p1, p2).evaluate] returns normally, with the sum,
    from [0.0], of [evaluate_swap(from, to)] over the paired swaps of the
    arc, each read from the solution as it is; [apply] makes the
    [apply_swap] calls of the same pairs in the same order. *)
Theorem invert_evaluate_sums (p : permutation_problem double) (p1 p2 : Z) :
  0 ≤ p1 < size p → 0 ≤ p2 < size p → p1 ≠ p2 →
  evaluate evaluate_swap (invert_subsequence p1 p2) (permutation p)
  = Ok (foldl (λ e (ij : Z * Z), fadd e (evaluate_swap p ij.1 ij.2)) fzero
          (arc_swaps (size p) p1 p2)) ∧
  apply evaluate_swap (invert_subsequence p1 p2) (permutation p)
  = (p' ← apply_swaps evaluate_swap (arc_swaps (size p) p1 p2) p;
     Ok (permutation p')).
Proof.
  intros H1 H2 Hne. split.
  - unfold invert_subsequence. simpl. unfold for_upto.
    destruct (invert_top_bounds (size p) p1 p2 H1 H2) as [_ Hq].
    destruct (Z.ltb_spec (Z.quot (invert_top (size p) p1 p2) 2) 0); [lia|].
    rewrite invert_evaluate_loop by lia.
    rewrite Z2Nat.id by lia. by rewrite arc_swaps_rounds.
  - unfold invert_subsequence.
    rewrite (invert_apply_swaps evaluate_swap) by done.
    by rewrite arc_swaps_rounds.
Qed.

End EvaluateFacts.

(** ** The scan of a round, in general *)

Section ScanFacts.
Context {double : Type} {ops : FloatOps double}.
Context {move_t move_manager_t solution_recorder cooling_schedule_t
         generator : Type}.
Variable move_evaluate : move_t → feasible_solution double → outcome double.
Variable move_apply
  : move_t → feasible_solution double → outcome (feasible_solution double).
Variable refresh
  : move_manager_t → feasible_solution double → outcome move_manager_t.
Variable begin_end : move_manager_t → list move_t.
Variable accept : solution_recorder → feasible_solution double
                  → outcome (bool * solution_recorder).
Variable schedule : cooling_schedule_t → double → feasible_solution double
                    → outcome (double * cooling_schedule_t).
Variable gen : generator → double * generator.

Local Abbreviation search_t :=
  (simulated_annealing double move_t move_manager_t solution_recorder
     cooling_schedule_t generator).
Local Abbreviation scan := (scan_moves move_evaluate move_apply accept gen).
Local Abbreviation round :=
  (search_round move_evaluate move_apply refresh begin_end accept schedule gen).
Local Abbreviation loop :=
  (search_loop move_evaluate move_apply refresh begin_end accept schedule gen).

Lemma same_setup_trans (a b c : search_t) :
  same_setup a b → same_setup b c → same_setup a c.
Proof. unfold same_setup. intuition congruence. Qed.

Lemma same_setup_log (c : call move_t) (sa : search_t) :
  same_setup sa (log c sa).
Proof. by destruct sa. Qed.

(** The calls of a list that are neither evaluations nor applications nor
    notifications nor the cooling. *)
Local Abbreviation silent cs :=
  (evaluated cs = [] ∧ applied cs = [] ∧ notified cs = [] ∧ rounds cs = 0%nat).

Lemma metropolis_frame (delta : double) (sa : search_t) :
  same_setup sa (metropolis gen delta sa).2 ∧
  working_solution_m (metropolis gen delta sa).2 = working_solution_m sa ∧
  solution_recorder_m (metropolis gen delta sa).2 = solution_recorder_m sa ∧
  ∃ cs : list (call move_t),
    calls_m (metropolis gen delta sa).2 = calls_m sa ++ cs ∧ silent cs.
Proof.
  rewrite metropolis_state. destruct (fltb delta fzero).
  - split; [by destruct sa|]. split; [done|]. split; [done|]. exists [].
    by rewrite app_nil_r.
  - split; [by destruct sa|]. split; [by destruct sa|].
    split; [by destruct sa|]. exists [call_gen]. by destruct sa.
Qed.

Lemma accept_move_shape (m : move_t) (sa sa' : search_t) :
  accept_move move_apply accept m sa = Ok sa' →
  move_apply m (working_solution_m sa) = Ok (working_solution_m sa') ∧
  current_move_m sa' = Some m ∧ same_setup sa sa' ∧
  ∃ cs : list (call move_t),
    calls_m sa' = calls_m sa ++ cs ∧ evaluated cs = [] ∧ applied cs = [m] ∧
    last (notified cs) = Some MOVE_MADE ∧ rounds cs = 0%nat.
Proof.
  unfold accept_move.
  destruct (move_apply m (working_solution_m sa)) as [ws'| | | |];
    try done.
  cbn [mbind outcome_bind].
  destruct (accept _ _) as [[improved rec']| | | |]; try done.
  cbn [mbind outcome_bind]. intros [= <-].
  destruct sa as [ws rec mm cm st tc cs0 t0 ts T K g calls].
  destruct improved; simpl.
  - split; [done|]. split; [done|]. split; [done|].
    exists [call_apply m; call_accept; call_notify IMPROVEMENT_MADE;
            call_notify MOVE_MADE].
    split; [by rewrite <- !app_assoc|done].
  - split; [done|]. split; [done|]. split; [done|].
    exists [call_apply m; call_accept; call_notify MOVE_MADE].
    split; [by rewrite <- !app_assoc|done].
Qed.

Lemma evaluated_app (cs1 cs2 : list (call move_t)) :
  evaluated (cs1 ++ cs2) = evaluated cs1 ++ evaluated cs2.
Proof. apply omap_app. Qed.

Lemma applied_app (cs1 cs2 : list (call move_t)) :
  applied (cs1 ++ cs2) = applied cs1 ++ applied cs2.
Proof. apply omap_app. Qed.

Lemma notified_app (cs1 cs2 : list (call move_t)) :
  notified (cs1 ++ cs2) = notified cs1 ++ notified cs2.
Proof. apply omap_app. Qed.

Lemma rounds_app (cs1 cs2 : list (call move_t)) :
  rounds (cs1 ++ cs2) = (rounds cs1 + rounds cs2)%nat.
Proof. unfold rounds. by rewrite omap_app, length_app. Qed.

Lemma scan_shape (actual_cost : double)
    (movs : list move_t) (sa sa' : search_t) :
  scan actual_cost movs sa = Ok sa' →
  ∃ cs : list (call move_t),
    calls_m sa' = calls_m sa ++ cs ∧ same_setup sa sa' ∧
    rounds cs = 0%nat ∧ evaluated cs `prefix_of` movs ∧
    ((applied cs = [] ∧ evaluated cs = movs ∧ notified cs = [] ∧
      working_solution_m sa' = working_solution_m sa ∧
      solution_recorder_m sa' = solution_recorder_m sa) ∨
     (∃ m, applied cs = [m] ∧ last (evaluated cs) = Some m ∧
           move_apply m (working_solution_m sa)
           = Ok (working_solution_m sa') ∧
           current_move_m sa' = Some m ∧
           last (notified cs) = Some MOVE_MADE)).
Proof.
  revert sa. induction movs as [|m movs IH]; intros sa E.
  { injection E as <-. exists []. rewrite app_nil_r.
    split; [done|]. split; [by destruct sa|]. split; [done|].
    split; [done|]. by left. }
  cbn [scan_moves] in E.
  destruct (move_evaluate m (working_solution_m sa)) as [cost| | | |];
    try done.
  cbn [mbind outcome_bind] in E.
  destruct (metropolis_frame (fsub cost actual_cost)
              (log (call_evaluate m) sa))
    as (Hset & Hws & Hrc & csm & Hcalls & Hem & Ham & Hnm & Hrm).
  destruct (metropolis gen (fsub cost actual_cost)
              (log (call_evaluate m) sa)) as [accepted sa1].
  cbn [snd] in Hset, Hws, Hrc, Hcalls.
  assert (Hws1 : working_solution_m sa1 = working_solution_m sa).
  { rewrite Hws. by destruct sa. }
  assert (Hrc1 : solution_recorder_m sa1 = solution_recorder_m sa).
  { rewrite Hrc. by destruct sa. }
  assert (Hset1 : same_setup sa sa1).
  { eapply same_setup_trans; [apply same_setup_log|exact Hset]. }
  assert (Hcalls1 : calls_m sa1 = calls_m sa ++ call_evaluate m :: csm).
  { rewrite Hcalls. destruct sa; simpl. by rewrite <- app_assoc. }
  clear Hset Hws Hrc Hcalls.
  destruct accepted.
  - apply accept_move_shape in E
      as (Happ & Hcur & Hset2 & csa & Hcalls2 & Hea & Haa & Hna & Hra).
    exists ([call_evaluate m] ++ csm ++ csa).
    split; [rewrite Hcalls2, Hcalls1; by rewrite <- app_assoc|].
    split; [by eapply same_setup_trans|].
    rewrite !rounds_app, !evaluated_app, !applied_app, !notified_app.
    rewrite Hrm, Hra, Hem, Hea, Ham, Haa, Hnm.
    split; [done|].
    split; [by apply prefix_cons, prefix_nil|].
    right. exists m. split; [done|]. split; [done|].
    split; [by rewrite <- Hws1|]. done.
  - destruct (IH sa1 E) as (cs & Hcalls2 & Hset2 & Hr & Hpre & Hcase).
    exists ([call_evaluate m] ++ csm ++ cs).
    split; [rewrite Hcalls2, Hcalls1; by rewrite <- app_assoc|].
    split; [by eapply same_setup_trans|].
    rewrite !rounds_app, !evaluated_app, !applied_app, !notified_app.
    rewrite Hrm, Hr, Hem, Ham, Hnm.
    split; [done|].
    split; [by apply prefix_cons|].
    destruct Hcase
      as [(Ha & He & Hn & Hw & Hrec)|(m' & Ha & Hl & Happ & Hcur & Hn)].
    + left. rewrite He. split; [done|]. split; [done|]. split; [done|].
      split; congruence.
    + right. exists m'. split; [done|]. split.
      { simpl. destruct (evaluated cs); [done|]. by rewrite last_cons, Hl. }
      split; [by rewrite <- Hws1|]. done.
Qed.

(** X13.  Whenever the scan of the moves of a round returns, the moves
    it evaluated are a prefix of the neighborhood, in its order; it
    called no cooling schedule and changed neither the neighborhood, the
    termination chain, the temperatures nor [K]; and either it applied no
    move, evaluated every move, notified nothing and left the working
    solution and the recorder as they were, or it applied exactly one
    move, the last one it evaluated, to the working solution the round
    started with, recorded it as the current move and notified
    [MOVE_MADE] last. *)
Theorem scan_applies_at_most_one (actual_cost : double)
    (movs : list move_t) (sa sa' : search_t) :
  scan actual_cost movs sa = Ok sa' →
  ∃ cs : list (call move_t),
    calls_m sa' = calls_m sa ++ cs ∧ same_setup sa sa' ∧
    rounds cs = 0%nat ∧ evaluated cs `prefix_of` movs ∧
    ((applied cs = [] ∧ evaluated cs = movs ∧ notified cs = [] ∧
      working_solution_m sa' = working_solution_m sa ∧
      solution_recorder_m sa' = solution_recorder_m sa) ∨
     (∃ m, applied cs = [m] ∧ last (evaluated cs) = Some m ∧
           move_apply m (working_solution_m sa)
           = Ok (working_solution_m sa') ∧
           current_move_m sa' = Some m ∧
           last (notified cs) = Some MOVE_MADE)).
Proof. apply scan_shape. Qed.

(** *** A search under an iteration cap *)

Section Capped.
(** The solutions the search works on and the moves the neighborhood
    offers, and that no collaborator fails on them. *)
Variable inv : feasible_solution double → Prop.
Variable sound : move_manager_t → Prop.
Variable lawful : move_t → Prop.
Hypothesis cost_returns :
  ∀ ws, inv ws → ∃ c, static_cast_cost ws = Ok c.
Hypothesis refresh_returns :
  ∀ mm ws, sound mm → inv ws →
    ∃ mm', refresh mm ws = Ok mm' ∧ sound mm' ∧
           Forall lawful (begin_end mm').
Hypothesis evaluate_returns :
  ∀ m ws, lawful m → inv ws → ∃ c, move_evaluate m ws = Ok c.
Hypothesis apply_returns :
  ∀ m ws, lawful m → inv ws → ∃ ws', move_apply m ws = Ok ws' ∧ inv ws'.
Hypothesis accept_returns :
  ∀ r ws, inv ws → ∃ x, accept r ws = Ok x.
Hypothesis schedule_returns :
  ∀ c t ws, inv ws → ∃ x, schedule c t ws = Ok x.

Lemma scan_returns (actual_cost : double) (movs : list move_t) :
  Forall lawful movs →
  ∀ sa : search_t, inv (working_solution_m sa) →
    ∃ sa', scan actual_cost movs sa = Ok sa' ∧ inv (working_solution_m sa').
Proof.
  induction 1 as [|m movs Hm _ IH]; intros sa Hinv; [by exists sa|].
  cbn [scan_moves].
  destruct (evaluate_returns m _ Hm Hinv) as [cost ->].
  cbn [mbind outcome_bind].
  destruct (metropolis_frame (fsub cost actual_cost)
              (log (call_evaluate m) sa)) as (_ & Hws & Hrc & _).
  destruct (metropolis gen (fsub cost actual_cost)
              (log (call_evaluate m) sa)) as [accepted sa1].
  cbn [snd] in Hws, Hrc.
  assert (Hws1 : working_solution_m sa1 = working_solution_m sa).
  { rewrite Hws. by destruct sa. }
  destruct accepted.
  - unfold accept_move. rewrite Hws1.
    destruct (apply_returns m _ Hm Hinv) as (ws' & -> & Hinv').
    cbn [mbind outcome_bind].
    change (working_solution_m
              (set_current_move (Some m)
                 (log (call_apply m) (set_working_solution ws' sa1))))
      with ws'.
    destruct (accept_returns
                (solution_recorder_m
                   (set_current_move (Some m)
                      (log (call_apply m) (set_working_solution ws' sa1))))
                ws' Hinv') as [[improved rec'] ->].
    cbn [mbind outcome_bind]. eexists. split; [done|].
    by destruct improved.
  - apply IH. by rewrite Hws1.
Qed.

Lemma round_returns (sa : search_t) :
  inv (working_solution_m sa) → sound (moves_m sa) →
  ∃ sa' (cs : list (call move_t)),
    round sa = Ok sa' ∧ inv (working_solution_m sa') ∧
    sound (moves_m sa') ∧
    termination_criteria_m sa' = termination_criteria_m sa ∧
    stop_temp_m sa' = stop_temp_m sa ∧
    calls_m sa' = calls_m sa ++ cs ∧ rounds cs = 1%nat.
Proof.
  intros Hinv Hsound. unfold search_round.
  destruct (cost_returns _ Hinv) as [base ->]. cbn [mbind outcome_bind].
  destruct (refresh_returns (moves_m sa) _ Hsound Hinv)
    as (mm & -> & Hsound' & Hlaw).
  cbn [mbind outcome_bind].
  set (sa1 := log call_refresh (set_moves mm sa)).
  assert (Hinv1 : inv (working_solution_m sa1)) by (by destruct sa).
  change (begin_end (moves_m sa1)) with (begin_end mm).
  destruct (scan_returns base (begin_end mm) Hlaw sa1 Hinv1)
    as (sa2 & E & Hinv2).
  rewrite E. cbn [mbind outcome_bind].
  destruct (scan_shape base (begin_end mm) sa1 sa2 E)
    as (cs & Hcalls & Hset & Hr & _).
  destruct (schedule_returns (cooling_schedule_m sa2) (current_temp_m sa2)
              _ Hinv2) as [[temp cs'] ->].
  cbn [mbind outcome_bind].
  exists (log call_schedule
            (set_current_temp temp (set_cooling_schedule cs' sa2))),
    ([call_refresh] ++ cs ++ [call_schedule]).
  split; [done|].
  destruct Hset as (Hmm & Htc & _ & _ & Hstop & _).
  split; [by destruct sa2|].
  split.
  { replace (moves_m (log call_schedule
                        (set_current_temp temp
                           (set_cooling_schedule cs' sa2))))
      with (moves_m sa2) by (by destruct sa2).
    rewrite <- Hmm. by destruct sa. }
  split.
  { transitivity (termination_criteria_m sa2); [by destruct sa2|].
    rewrite <- Htc. by destruct sa. }
  split.
  { transitivity (stop_temp_m sa2); [by destruct sa2|].
    rewrite <- Hstop. by destruct sa. }
  split.
  - transitivity (calls_m sa2 ++ [call_schedule]); [by destruct sa2|].
    rewrite Hcalls. unfold sa1. destruct sa; simpl.
    by rewrite <- !app_assoc.
  - rewrite !rounds_app, Hr. done.
Qed.

Lemma loop_returns (max : Z) (n : nat) :
  ∀ (sa : search_t) (it : Z),
    termination_criteria_m sa
    = chain_node (iteration_criteria max it) null_chain →
    0 ≤ it → (Z.to_nat it ≤ n)%nat → inv (working_solution_m sa) →
    sound (moves_m sa) →
    ∃ sa' (cs : list (call move_t)),
      loop (S n) sa = Ok sa' ∧ calls_m sa' = calls_m sa ++ cs ∧
      (rounds cs ≤ Z.to_nat it)%nat ∧ inv (working_solution_m sa').
Proof.
  induction n as [|n IH]; intros sa it Htc Hit Hn Hinv Hsound.
  - assert (it = 0) as -> by lia.
    cbn [search_loop]. unfold search_condition. rewrite Htc.
    cbn [chain_call]. simpl Z.leb. cbn [mbind outcome_bind negb andb].
    eexists. exists [call_termination]. split; [done|].
    split; [by destruct sa|]. split; [done|]. by destruct sa.
  - cbn [search_loop]. unfold search_condition. rewrite Htc.
    cbn [chain_call].
    destruct (Z.leb_spec it 0) as [Hle|Hgt].
    { cbn [mbind outcome_bind negb andb].
      eexists. exists [call_termination]. split; [done|].
      split; [by destruct sa|].
      split; [apply Nat.le_0_l|]. by destruct sa. }
    cbn [mbind outcome_bind negb andb].
    set (sa0 := log call_termination
                  (set_termination_criteria
                     (chain_node (iteration_criteria max (it - 1))
                        null_chain) sa)).
    destruct (fltb (stop_temp_m sa0) (current_temp_m sa0)).
    2:{ exists sa0, [call_termination]. split; [done|].
        split; [by destruct sa|].
      split; [apply Nat.le_0_l|]. by destruct sa. }
    assert (Hinv0 : inv (working_solution_m sa0)) by (by destruct sa).
    assert (Hsound0 : sound (moves_m sa0)) by (by destruct sa).
    destruct (round_returns sa0 Hinv0 Hsound0)
      as (sa1 & cs1 & E1 & Hinv1 & Hsound1 & Htc1 & _ & Hcalls1 & Hr1).
    rewrite E1. cbn [mbind outcome_bind].
    destruct (IH sa1 (it - 1)) as (sa' & cs & E & Hcalls & Hr & Hinv');
      [|lia|lia|done|done|].
    { rewrite Htc1. by destruct sa. }
    exists sa', ([call_termination] ++ cs1 ++ cs).
    split; [done|]. split.
    { rewrite Hcalls, Hcalls1. unfold sa0. destruct sa; simpl.
      by rewrite <- !app_assoc. }
    split; [|done]. rewrite !rounds_app, Hr1. simpl. lia.
Qed.

(** X14.  With an [iteration_termination_criteria(max)], [max >= 0], as
    its termination chain, and collaborators that do not fail on the
    solutions and moves the search meets, [search] returns: [max + 1]
    evaluations of the loop condition are enough, and it has run at most
    [max] rounds. *)
Theorem capped_search_returns (max : Z) (fuel : nat) (sa : search_t) :
  0 ≤ max →
  termination_criteria_m sa = iteration_termination_criteria max →
  inv (working_solution_m sa) → sound (moves_m sa) →
  (Z.to_nat max < fuel)%nat →
  ∃ sa' (cs : list (call move_t)),
    search move_evaluate move_apply refresh begin_end accept schedule gen
      fuel sa = Ok sa' ∧
    calls_m sa' = calls_m sa ++ cs ∧
    (rounds cs ≤ Z.to_nat max)%nat ∧
    inv (working_solution_m sa').
Proof.
  intros Hmax Htc Hinv Hsound Hfuel. unfold search.
  destruct fuel as [|n]; [lia|].
  destruct (loop_returns max n
              (set_current_temp (starting_temp_m sa) sa) max)
    as (sa' & cs & E & Hcalls & Hr & Hinv'); [by destruct sa|lia|lia| | |].
  { by destruct sa. }
  { by destruct sa. }
  exists sa', cs. split; [done|]. split; [|done].
  rewrite Hcalls. by destruct sa.
Qed.

End Capped.

End ScanFacts.

(** * The further properties at concrete inputs *)

(** The full swap neighborhood of size 4. *)
Lemma swap_full_neighborhood_moves_witness :
  swap_full_neighborhood 4 = Ok (ordered_pairs 4) ∧
  2 * Z.of_nat (length (ordered_pairs 4)) = 4 * (4 - 1) ∧
  NoDup (ordered_pairs 4) ∧
  ∀ m, m ∈ ordered_pairs 4 ↔
       ∃ p1 p2, m = SwapElements p1 p2 ∧ 0 ≤ p1 ∧ p1 < p2 ∧ p2 < 4.
Proof. apply (swap_full_neighborhood_moves 4). lia. Defined.

(** The full inversion neighborhood of size 3. *)
Lemma invert_full_neighborhood_moves_witness :
  invert_full_neighborhood 3 = Ok (distinct_pairs 3) ∧
  Z.of_nat (length (distinct_pairs 3)) = 3 * (3 - 1) ∧
  NoDup (distinct_pairs 3) ∧
  ∀ m, m ∈ distinct_pairs 3 ↔
       ∃ p1 p2, m = InvertSubsequence p1 p2 ∧
                0 ≤ p1 < 3 ∧ 0 ≤ p2 < 3 ∧ p1 ≠ p2.
Proof. apply (invert_full_neighborhood_moves 3). lia. Defined.

(** The hashes of [swap_elements(1, 2)] and [invert_subsequence(1, 2)]. *)
Lemma hash_separates_witness :
  hash (swap_elements 1 2) = Ok 65538 ∧
  (hash (swap_elements 1 2) = hash (invert_subsequence 1 2) ↔
   move_fields (swap_elements 1 2) = move_fields (invert_subsequence 1 2)).
Proof.
  destruct (hash_separates (swap_elements 1 2) (invert_subsequence 1 2))
    as (Hv & Hiff & _); [simpl; lia..|].
  split; [exact Hv|exact Hiff].
Defined.

(** [clone()] and [opposite_of()] of [swap_elements(3, 1)], which holds
    [p1 = 1] and [p2 = 3]. *)
Lemma move_identity_witness :
  move_eq (clone (swap_elements 3 1)) (swap_elements 3 1) = true ∧
  move_eq (opposite_of (swap_elements 3 1)) (swap_elements 3 1) = true ∧
  hash (clone (swap_elements 3 1)) = hash (swap_elements 3 1).
Proof.
  refine (proj2 (proj2 (proj2 (proj2 (proj2 (proj2 (proj2 (proj2 (proj2
            (move_identity 0 0 (swap_elements 3 1) (swap_elements 3 1))
         )))))))) _).
  intros p1 p2 [= <- <-]. lia.
Defined.

(** [apply_swap(1, 3)] twice on the assignment problem at
    [pi = (0,1,2,3)]. *)
Lemma apply_swap_twice_witness :
  let p := Assignment.start [0; 1; 2; 3] in
  ∃ p1 p2 q,
    apply_swap Assignment.evaluate_swap 1 3 p = Ok p1 ∧
    apply_swap Assignment.evaluate_swap 1 3 p1 = Ok p2 ∧
    pi_m p2 = pi_m p ∧
    cost_m p2
    = fadd (fadd (cost_m p) (Assignment.evaluate_swap p 1 3))
        (Assignment.evaluate_swap p1 1 3) ∧
    apply_swap Assignment.evaluate_swap 3 1 p = Ok q ∧
    pi_m q = pi_m p1.
Proof.
  apply (apply_swap_twice Assignment.evaluate_swap
           (Assignment.start [0; 1; 2; 3]) 1 3);
    unfold size; simpl; lia.
Defined.

(** [invert_subsequence(3, 1)] twice on [pi = (0,1,2,3,4)]. *)
Lemma invert_apply_twice_witness :
  let p := Assignment.start [0; 1; 2; 3; 4] in
  ∃ p' p'',
    apply Assignment.evaluate_swap (invert_subsequence 3 1) (permutation p)
    = Ok (permutation p') ∧
    apply Assignment.evaluate_swap (invert_subsequence 3 1) (permutation p')
    = Ok (permutation p'') ∧
    pi_m p'' = pi_m p.
Proof.
  apply (invert_apply_twice Assignment.evaluate_swap
           (Assignment.start [0; 1; 2; 3; 4]) 3 1);
    unfold size; simpl; lia.
Defined.

(** [randomize_move] with the counting generator at 7 for the size 5. *)
Lemma randomize_move_normalizes_witness :
  ∃ m rng',
    randomize_move Z Counter.int_range 2 5 7 = Ok (m, rng') ∧
    normal_swap 5 m.
Proof.
  destruct (randomize_move_normalizes Z Counter.int_range counter_bounds
              2 5 7) as (Hok & _); [lia|].
  destruct (randomize_move Z Counter.int_range 2 5 7)
    as [[m rng']| | | |] eqn:E; try (vm_compute in E; discriminate E).
  exists m, rng'. split; [reflexivity|exact Hok].
Defined.

(** [perturbate] on a problem of size 1. *)
Lemma single_cell_never_returns_witness :
  perturbate Assignment.evaluate_swap Z Counter.int_range 100
    (Assignment.start [0]) 1 7 = OutOfFuel.
Proof.
  apply (single_cell_never_returns Assignment.evaluate_swap Z
           Counter.int_range counter_bounds 100 1 (Assignment.start [0]) 7);
    [reflexivity|lia].
Defined.


(** An iteration cap of 3 in front of a cost threshold of 5 that the costs
    never reach. *)
Lemma iteration_cap_in_front_witness :
  chain_run
    (iteration_termination_criteria_next
       (threshold_termination_criteria 5%Q (1 # 10000000)%Q) 3)
    (evaluable <$> [10; 8; 9; 7; 6]%Q)
  = Ok ([false; false; false; true; true],
        chain_node (iteration_criteria 3 0)
          (threshold_termination_criteria 5%Q (1 # 10000000)%Q)).
Proof.
  refine (iteration_cap_in_front (ops:=Q_ops) 3
            (threshold_termination_criteria 5%Q (1 # 10000000)%Q)
            (threshold_termination_criteria 5%Q (1 # 10000000)%Q)
            (evaluable <$> [10; 8; 9; 7; 6]%Q) [false; false; false] _ _).
  - lia.
  - reflexivity.
Defined.

(** The counters of the no-improvement criterion with [max = 2] on the
    costs 10, 8, 9, 7, 12, 12, 12. *)
Lemma noimprove_accounting_witness :
  ∃ rs d',
    chain_run (noimprove_termination_criteria 2 (1 # 10000000)%Q)
      (evaluable <$> [10; 8; 9; 7; 12; 12; 12]%Q)
    = Ok (rs, chain_node (noimprove_criteria d') null_chain) ∧
    total_iterations_m d' = count_answers false rs ∧
    resets_m d'
    = count_answers true
        (improving_calls fmax_value (1 # 10000000)%Q
           [10; 8; 9; 7; 12; 12; 12]%Q) ∧
    0 ≤ iterations_left_m d' ≤ 2 ∧ 0 ≤ second_guess_m d' ≤ 2.
Proof.
  apply (noimprove_accounting (ops:=Q_ops) 2 (1 # 10000000)%Q
           (evaluable <$> [10; 8; 9; 7; 12; 12; 12]%Q)
           [10; 8; 9; 7; 12; 12; 12]%Q).
  - lia.
  - repeat constructor.
Defined.

(** The evaluation of [invert_subsequence(3, 1)] on [pi = (0,1,2,3,4)]. *)
Lemma invert_evaluate_sums_witness :
  let p := Assignment.start [0; 1; 2; 3; 4] in
  evaluate Assignment.evaluate_swap (invert_subsequence 3 1) (permutation p)
  = Ok (foldl (λ e (ij : Z * Z),
                 fadd e (Assignment.evaluate_swap p ij.1 ij.2)) fzero
          (arc_swaps (size p) 3 1)) ∧
  apply Assignment.evaluate_swap (invert_subsequence 3 1) (permutation p)
  = (p' ← apply_swaps Assignment.evaluate_swap (arc_swaps (size p) 3 1) p;
     Ok (permutation p')).
Proof.
  apply (invert_evaluate_sums Assignment.evaluate_swap
           (Assignment.start [0; 1; 2; 3; 4]) 3 1);
    unfold size; simpl; lia.
Defined.

(** The scan of the first round of the scenario. *)
Lemma scan_applies_at_most_one_witness :
  ∃ sa' cs,
    scan_moves Scenario.evaluate Scenario.apply Scenario.accept Scenario.gen
      4%Q Scenario.neighborhood Scenario.start = Ok sa' ∧
    calls_m sa' = calls_m Scenario.start ++ cs ∧
    same_setup Scenario.start sa' ∧
    evaluated cs `prefix_of` Scenario.neighborhood.
Proof.
  destruct (scan_moves Scenario.evaluate Scenario.apply Scenario.accept
              Scenario.gen 4%Q Scenario.neighborhood Scenario.start)
    as [sa'| | | |] eqn:E; try (vm_compute in E; discriminate E).
  destruct (scan_applies_at_most_one Scenario.evaluate Scenario.apply
              Scenario.accept Scenario.gen 4%Q Scenario.neighborhood
              Scenario.start sa' E) as (cs & Hc & Hs & _ & Hp & _).
  exists sa', cs. split; [reflexivity|]. split; [exact Hc|].
  split; [exact Hs|exact Hp].
Defined.

(** The swaps of the scenario's neighborhood keep a permutation problem of
    size 4 one. *)
Lemma scenario_apply_returns (m : move) (ws : feasible_solution Q) :
  scenario_move m → scenario_solution ws →
  ∃ ws', Scenario.apply m ws = Ok ws' ∧ scenario_solution ws'.
Proof.
  intros (i & j & -> & Hi & Hj) (p & -> & Hs).
  destruct (apply_swap_cells Assignment.evaluate_swap p i j)
    as (p' & E & _ & _ & Hl & _); [lia..|].
  exists (permutation p'). unfold Scenario.apply. simpl. rewrite E.
  split; [done|]. exists p'. split; [done|]. unfold size in *. lia.
Qed.

(** The search of the scenario under its iteration cap of 500. *)
Lemma capped_search_returns_witness :
  ∃ sa' cs,
    search Scenario.evaluate Scenario.apply Scenario.refresh
      Scenario.begin_end Scenario.accept Scenario.schedule Scenario.gen
      501 Scenario.start = Ok sa' ∧
    calls_m sa' = calls_m Scenario.start ++ cs ∧
    (rounds cs ≤ 500)%nat ∧
    scenario_solution (working_solution_m sa').
Proof.
  refine (capped_search_returns Scenario.evaluate Scenario.apply
            Scenario.refresh Scenario.begin_end Scenario.accept
            Scenario.schedule Scenario.gen
            scenario_solution (λ mm, mm = Scenario.neighborhood)
            scenario_move _ _ _ _ _ _ 500 501 Scenario.start _ _ _ _ _).
  - intros ws (p & -> & _). by eexists.
  - intros mm ws -> _. exists Scenario.neighborhood.
    split; [done|]. split; [done|].
    repeat constructor; eexists _, _; (split; [done|lia]).
  - intros m ws (i & j & -> & _) (p & -> & _). by eexists.
  - apply scenario_apply_returns.
  - intros r ws (p & -> & _). unfold Scenario.accept. simpl.
    destruct (Qltb (cost_function p) r); by eexists.
  - intros c t ws _. by eexists.
  - lia.
  - reflexivity.
  - exists (Assignment.start [3; 2; 1; 0]). split; reflexivity.
  - reflexivity.
  - simpl. lia.
Defined.
